(** * BreakoutStore: the reactive analysis pipeline of the breakout page

    A shallow embedding of [packages/rath-client/src/pages/breakout/store.tsx]:
    the data the store holds, the five [map] callbacks of its RxJS pipeline,
    the subscriptions that publish into the store, [export], the setters and
    [destroy].

    JavaScript numbers are IEEE doubles.  The store never computes on them: it
    only hands them from [statDivision] to [analyzeContributions].  They are
    represented by rationals. *)

From Stdlib Require Import QArith.
From stdpp Require Import base strings list gmap.
Close Scope Q_scope.

Set Default Proof Using "Type".

(** ** Data model *)

Definition number := Q.

(** [Aggregator] of [global.ts]; the store lists ['mean'], ['sum'] and
    ['count'] in [NumericalMetricAggregationTypes]. *)
Inductive Aggregator := mean | sum | count.

Inductive ISemanticType := quantitative | ordinal | nominal | temporal.

(** The members of [IFieldMeta] the store reads. *)
Record IFieldMeta := {
  fid : string;
  name : string;
  semanticType : ISemanticType;
}.

(** A cell of a row: a number, a string, or a missing value. *)
Inductive Value := VNum (n : number) | VStr (s : string) | VNull.

(** [IRow]: an object used as a map from field id to cell. *)
Abbreviation IRow := (gmap string Value).

(** [IFilter] is a tagged union on [type]: a range or a value set. *)
Inductive FilterRule :=
| Range (lo hi : number)
| OneOf (values : list Value).

(** [filter_id] is the [id] of an [IUniqueFilter]; a plain [IFilter] has none. *)
Record IFilter := {
  filter_fid : string;
  filter_rule : FilterRule;
  filter_id : option string;
}.

(** [IExportFilter = IFilter & Pick<IFieldMeta, 'name' | 'semanticType'>]:
    the spread [...filter] keeps the filter whole. *)
Record IExportFilter := {
  ef_filter : IFilter;
  ef_name : string;
  ef_semanticType : ISemanticType;
}.

Record BreakoutMainField := {
  mf_fid : string;
  aggregator : Aggregator;
}.

Record BreakoutMainFieldExport := {
  mfe_main : BreakoutMainField;
  mfe_name : string;
  mfe_semanticType : ISemanticType;
}.

Record BreakoutStoreExports := {
  ex_mainField : option BreakoutMainFieldExport;
  ex_mainFieldFilters : list IExportFilter;
  ex_comparisonFilters : list IExportFilter;
}.

(** What [resolveCompareTarget] returns; the store reads only [field]. *)
Record CompareTarget := {
  field : IFieldMeta;
}.

(** [FieldStats['stats']]: one number per aggregator, read by
    [stats[mainField.aggregator]]. *)
Record Stats := {
  stats_mean : number;
  stats_sum : number;
  stats_count : number;
}.

Definition stats_at (s : Stats) (a : Aggregator) : number :=
  match a with
  | mean => stats_mean s
  | sum => stats_sum s
  | count => stats_count s
  end.

Record FieldStats := {
  definition : BreakoutMainField;
  fs_field : IFieldMeta;
  stats : Stats;
}.

(** ** [exportFilters] *)

(** [fieldMetas.find(f => f.fid === filter.fid)] *)
Definition find_field (fieldMetas : list IFieldMeta) (id : string) : option IFieldMeta :=
  find (fun f => bool_decide (fid f = id)) fieldMetas.

Fixpoint exportFilters (filters : list IFilter) (fieldMetas : list IFieldMeta)
  : list IExportFilter :=
  match filters with
  | [] => []
  | filter :: rest =>
      match find_field fieldMetas (filter_fid filter) with
      | Some f =>
          {| ef_filter := filter; ef_name := name f; ef_semanticType := semanticType f |}
            :: exportFilters rest fieldMetas
      | None => exportFilters rest fieldMetas
      end
  end.

(** ** The imported collaborators

    [store.tsx] imports five functions from modules of the repository that are
    outside [src/]: [resolveCompareTarget] from [components/controlPanel],
    [applyDividers] and [statDivision] from [utils/stats],
    [analyzeContributions] and [analyzeComparisons] from [utils/top-drivers].
    The store only calls them, so the pipeline is defined over any
    implementation of this interface. *)
Class Imports := {
  ISubgroupResult : Type;
  resolveCompareTarget : BreakoutMainField -> list IFieldMeta -> option CompareTarget;
  applyDividers : list IRow -> list IFilter -> list IRow * list IRow;
  statDivision : list IRow -> list IRow -> list IFieldMeta -> string -> Stats;
  analyzeContributions :
    list IRow -> list IFieldMeta -> BreakoutMainField -> number -> list ISubgroupResult;
  analyzeComparisons :
    list IRow -> list IRow -> list IFieldMeta -> BreakoutMainField -> list ISubgroupResult;
}.

(** The value [inputFlow$] emits: the latest of the three inputs. *)
Record Input := {
  in_mainField : option BreakoutMainField;
  in_mainFieldFilters : list IFilter;
  in_comparisonFilters : list IFilter;
}.

(** What the callback of [global$] returns: [{ ...input, targetField, globalStats }]. *)
Record GlobalOut := {
  g_input : Input;
  g_targetField : option CompareTarget;
  g_globalStats : option FieldStats;
}.

(** What the callback of [mainGroup$] returns. *)
Record MainGroupOut := {
  mg_data : list IRow;
  mg_stats : option FieldStats;
  mg_mainField : option BreakoutMainField;
  mg_globalStats : option FieldStats;
}.

(** What the callback of [compareGroup$] returns. *)
Record CompareGroupOut := {
  cg_data : list IRow;
  cg_stats : option FieldStats;
}.

(** The fields of the class.  [fields] is [readonly] and assigned once from the
    constructor argument, so it is the argument itself below. *)
Record BreakoutStore `{Imports} := {
  mainField : option BreakoutMainField;
  mainFieldFilters : list IFilter;
  comparisonFilters : list IFilter;
  selection : list IRow;
  diffGroup : list IRow;
  globalStats : option FieldStats;
  selectionStats : option FieldStats;
  diffStats : option FieldStats;
  generalAnalyses : list ISubgroupResult;
  comparisonAnalyses : list ISubgroupResult;
}.

Section Stages.
Context `{Imports}.
(** The constructor arguments. *)
Variable data : list IRow.
Variable fields : list IFieldMeta.

(** *** The [map] callbacks *)

Definition global_stage (input : Input) : GlobalOut :=
  let mainField := in_mainField input in
  let targetField :=
    match mainField with
    | Some mf => resolveCompareTarget mf fields
    | None => None
    end in
  let globalStats :=
    match mainField, targetField with
    | Some mf, Some t =>
        Some {| definition := mf;
                fs_field := field t;
                stats := statDivision data data fields (fid (field t)) |}
    | _, _ => None
    end in
  {| g_input := input; g_targetField := targetField; g_globalStats := globalStats |}.

Definition mainGroup_stage (g : GlobalOut) : MainGroupOut :=
  let mainField := in_mainField (g_input g) in
  let mainFieldFilters := in_mainFieldFilters (g_input g) in
  let filtered := fst (applyDividers data mainFieldFilters) in
  let selection := filtered in
  let stats :=
    match mainField, g_targetField g with
    | Some mf, Some t =>
        if bool_decide (0 < length mainFieldFilters) then
          Some {| definition := mf;
                  fs_field := field t;
                  stats := statDivision data filtered fields (mf_fid mf) |}
        else None
    | _, _ => None
    end in
  {| mg_data := selection; mg_stats := stats;
     mg_mainField := mainField; mg_globalStats := g_globalStats g |}.

(** The analyzer stages also report how many times they called their analyzer
    (0 or 1), which the subscriptions add to a counter. *)
Definition generalAnalyses_stage (m : MainGroupOut) : list ISubgroupResult * nat :=
  match mg_mainField m, mg_globalStats m with
  | Some mf, Some gs =>
      (analyzeContributions (mg_data m) fields mf (stats_at (stats gs) (aggregator mf)), 1)
  | _, _ => ([], 0)
  end.

(** [None] is the [TypeError] of reading [.field] of [null] at
    [resolveCompareTarget(mainField, fields)!.field]. *)
Definition compareGroup_stage (g : GlobalOut) : option CompareGroupOut :=
  match in_mainField (g_input g), g_globalStats g with
  | Some mf, Some _ =>
      if bool_decide (length (in_comparisonFilters (g_input g)) = 0) then
        Some {| cg_data := []; cg_stats := None |}
      else
        let filtered := fst (applyDividers data (in_comparisonFilters (g_input g))) in
        match resolveCompareTarget mf fields with
        | None => None
        | Some t =>
            Some {| cg_data := filtered;
                    cg_stats :=
                      Some {| definition := mf;
                              fs_field := field t;
                              stats := statDivision data filtered fields (mf_fid mf) |} |}
        end
  | _, _ => Some {| cg_data := []; cg_stats := None |}
  end.

Definition comparisonAnalyses_stage
    (mainGroup : MainGroupOut) (compareGroup : CompareGroupOut) (global : GlobalOut)
  : list ISubgroupResult * nat :=
  let population := mg_data mainGroup in
  match in_mainField (g_input global) with
  | Some mf =>
      if bool_decide (length (in_comparisonFilters (g_input global)) = 0) then ([], 0)
      else (analyzeComparisons population (cg_data compareGroup) fields mf, 1)
  | None => ([], 0)
  end.

(** *** [export] *)

Definition export (s : BreakoutStore) : BreakoutStoreExports :=
  let main :=
    match mainField s with
    | Some mf => resolveCompareTarget mf fields
    | None => None
    end in
  {| ex_mainField :=
       match main, mainField s with
       | Some m, Some mf =>
           Some {| mfe_main := mf;
                   mfe_name := name (field m);
                   mfe_semanticType := semanticType (field m) |}
       | _, _ => None
       end;
     ex_mainFieldFilters := exportFilters (mainFieldFilters s) fields;
     ex_comparisonFilters := exportFilters (comparisonFilters s) fields |}.

End Stages.

(** ** The subscriptions

    [combineLatest], [throttleTime] and [map] are the RxJS operators, modelled
    after the library: [map] applies its callback to each value,
    [combineLatest] emits the latest values of its sources at each emission of
    one of them once all have emitted, and [throttleTime] is described below.

    None of the observables is shared, so each of the five [subscribe] calls
    of the constructor builds its own chain down to the three [toStream]
    sources, with its own [throttleTime] operator; [comparisonBase$] combines
    three observables and so holds three.  That makes seven throttles. *)
Inductive Subscription :=
| SubGlobal               (* global$.subscribe *)
| SubMainGroup            (* mainGroup$.subscribe *)
| SubGeneralAnalyses      (* generalAnalyses$.subscribe *)
| SubCompareGroup         (* compareGroup$.subscribe *)
| SubComparisonAnalyses.  (* comparisonAnalyses$.subscribe *)

Inductive Chain :=
| ChGlobal
| ChMainGroup
| ChGeneralAnalyses
| ChCompareGroup
| ChBaseMainGroup         (* comparisonBase$: mainGroup *)
| ChBaseCompareGroup      (* comparisonBase$: compareGroup *)
| ChBaseGlobal.           (* comparisonBase$: global *)

#[global] Instance Subscription_eq_dec : EqDecision Subscription.
Proof. solve_decision. Defined.

#[global] Instance Chain_eq_dec : EqDecision Chain.
Proof. solve_decision. Defined.

Definition subscriptions : list Subscription :=
  [SubGlobal; SubMainGroup; SubGeneralAnalyses; SubCompareGroup; SubComparisonAnalyses].

(** In the order in which the constructor subscribes. *)
Definition chains : list Chain :=
  [ChGlobal; ChMainGroup; ChGeneralAnalyses; ChCompareGroup;
   ChBaseMainGroup; ChBaseCompareGroup; ChBaseGlobal].

Definition owner (c : Chain) : Subscription :=
  match c with
  | ChGlobal => SubGlobal
  | ChMainGroup => SubMainGroup
  | ChGeneralAnalyses => SubGeneralAnalyses
  | ChCompareGroup => SubCompareGroup
  | ChBaseMainGroup | ChBaseCompareGroup | ChBaseGlobal => SubComparisonAnalyses
  end.

(** The state of one [throttleTime(200, undefined, { leading: true, trailing: true })]
    operator (RxJS 7 [throttle]): [throttled] is the running timer, here the time
    from which it may fire; [sendValue] is the value kept for the trailing
    emission ([hasValue] and [sendValue] of the operator). Times are in ms. *)
Record Throttle := {
  throttled : option nat;
  sendValue : option Input;
}.

Definition duration : nat := 200.

Definition idle : Throttle := {| throttled := None; sendValue := None |}.

(** A value arrives at time [t]: it is kept, and sent at once when no timer runs
    ([leading]), which starts the timer.  Returns the value sent downstream. *)
Definition throttle_next (t : nat) (v : Input) (th : Throttle) : Throttle * option Input :=
  match throttled th with
  | Some d => ({| throttled := Some d; sendValue := Some v |}, None)
  | None => ({| throttled := Some (t + duration); sendValue := None |}, Some v)
  end.

(** The timer fires at time [t] ([endThrottling]): with [trailing], a kept value
    is sent and the timer starts again; without one the throttle is idle again.
    A timer that does not run or is not due does nothing. *)
Definition throttle_timer (t : nat) (th : Throttle) : Throttle * option Input :=
  match throttled th with
  | Some d =>
      if bool_decide (d <= t) then
        match sendValue th with
        | Some v => ({| throttled := Some (t + duration); sendValue := None |}, Some v)
        | None => ({| throttled := None; sendValue := None |}, None)
        end
      else (th, None)
  | None => (th, None)
  end.

(** Unsubscribing the chain clears the timer. *)
Definition throttle_cancel (th : Throttle) : Throttle :=
  {| throttled := None; sendValue := sendValue th |}.

(** The closure state of the constructor: which subscriptions are closed, the
    seven throttles, and the latest values [comparisonBase$] combines. *)
Record Pipeline := {
  closed_global : bool;
  closed_mainGroup : bool;
  closed_generalAnalyses : bool;
  closed_compareGroup : bool;
  closed_comparisonAnalyses : bool;
  th_global : Throttle;
  th_mainGroup : Throttle;
  th_generalAnalyses : Throttle;
  th_compareGroup : Throttle;
  th_base_mainGroup : Throttle;
  th_base_compareGroup : Throttle;
  th_base_global : Throttle;
  base_mainGroup : option MainGroupOut;
  base_compareGroup : option CompareGroupOut;
  base_global : option GlobalOut;
}.

Definition closed (sub : Subscription) (p : Pipeline) : bool :=
  match sub with
  | SubGlobal => closed_global p
  | SubMainGroup => closed_mainGroup p
  | SubGeneralAnalyses => closed_generalAnalyses p
  | SubCompareGroup => closed_compareGroup p
  | SubComparisonAnalyses => closed_comparisonAnalyses p
  end.

Definition throttle_of (c : Chain) (p : Pipeline) : Throttle :=
  match c with
  | ChGlobal => th_global p
  | ChMainGroup => th_mainGroup p
  | ChGeneralAnalyses => th_generalAnalyses p
  | ChCompareGroup => th_compareGroup p
  | ChBaseMainGroup => th_base_mainGroup p
  | ChBaseCompareGroup => th_base_compareGroup p
  | ChBaseGlobal => th_base_global p
  end.

Definition set_throttle (c : Chain) (th : Throttle) (p : Pipeline) : Pipeline :=
  {| closed_global := closed_global p;
     closed_mainGroup := closed_mainGroup p;
     closed_generalAnalyses := closed_generalAnalyses p;
     closed_compareGroup := closed_compareGroup p;
     closed_comparisonAnalyses := closed_comparisonAnalyses p;
     th_global := match c with ChGlobal => th | _ => th_global p end;
     th_mainGroup := match c with ChMainGroup => th | _ => th_mainGroup p end;
     th_generalAnalyses := match c with ChGeneralAnalyses => th | _ => th_generalAnalyses p end;
     th_compareGroup := match c with ChCompareGroup => th | _ => th_compareGroup p end;
     th_base_mainGroup := match c with ChBaseMainGroup => th | _ => th_base_mainGroup p end;
     th_base_compareGroup :=
       match c with ChBaseCompareGroup => th | _ => th_base_compareGroup p end;
     th_base_global := match c with ChBaseGlobal => th | _ => th_base_global p end;
     base_mainGroup := base_mainGroup p;
     base_compareGroup := base_compareGroup p;
     base_global := base_global p |}.

(** [subscription.unsubscribe()]: the subscription is closed and the timers of
    its chains are cleared. *)
Definition unsubscribe (sub : Subscription) (p : Pipeline) : Pipeline :=
  let stop c th := if bool_decide (owner c = sub) then throttle_cancel th else th in
  {| closed_global := match sub with SubGlobal => true | _ => closed_global p end;
     closed_mainGroup := match sub with SubMainGroup => true | _ => closed_mainGroup p end;
     closed_generalAnalyses :=
       match sub with SubGeneralAnalyses => true | _ => closed_generalAnalyses p end;
     closed_compareGroup :=
       match sub with SubCompareGroup => true | _ => closed_compareGroup p end;
     closed_comparisonAnalyses :=
       match sub with SubComparisonAnalyses => true | _ => closed_comparisonAnalyses p end;
     th_global := stop ChGlobal (th_global p);
     th_mainGroup := stop ChMainGroup (th_mainGroup p);
     th_generalAnalyses := stop ChGeneralAnalyses (th_generalAnalyses p);
     th_compareGroup := stop ChCompareGroup (th_compareGroup p);
     th_base_mainGroup := stop ChBaseMainGroup (th_base_mainGroup p);
     th_base_compareGroup := stop ChBaseCompareGroup (th_base_compareGroup p);
     th_base_global := stop ChBaseGlobal (th_base_global p);
     base_mainGroup := base_mainGroup p;
     base_compareGroup := base_compareGroup p;
     base_global := base_global p |}.

(** ** The store and its pipeline *)

(** The store together with the closure state of its constructor and two
    counters of the analyzer calls made so far. *)
Record State `{Imports} := {
  store : BreakoutStore;
  pipe : Pipeline;
  calls_analyzeContributions : nat;
  calls_analyzeComparisons : nat;
}.

Inductive Action :=
| SetMainField (mainField : option BreakoutMainField)
| SetMainFieldFilters (mainFieldFilters : list IFilter)
| SetComparisonFilters (comparisonFilters : list IFilter)
| Destroy
| TimerFires (c : Chain).

(** What happens, and when (ms). *)
Record Event := {
  time : nat;
  action : Action;
}.

(** All seven timers fire at time [t], in the order in which they were started. *)
Definition timers (t : nat) : list Event :=
  map (fun c => {| time := t; action := TimerFires c |}) chains.

Section Store.
Context `{Imports}.
Variable data : list IRow.
Variable fields : list IFieldMeta.

(** *** Methods of the class *)

Definition setMainField (mf : option BreakoutMainField) (s : BreakoutStore) : BreakoutStore :=
  {| mainField := mf;
     mainFieldFilters := mainFieldFilters s;
     comparisonFilters := comparisonFilters s;
     selection := selection s; diffGroup := diffGroup s;
     globalStats := globalStats s; selectionStats := selectionStats s;
     diffStats := diffStats s;
     generalAnalyses := generalAnalyses s; comparisonAnalyses := comparisonAnalyses s |}.

Definition setMainFieldFilters (fs : list IFilter) (s : BreakoutStore) : BreakoutStore :=
  {| mainField := mainField s;
     mainFieldFilters := fs;
     comparisonFilters := comparisonFilters s;
     selection := selection s; diffGroup := diffGroup s;
     globalStats := globalStats s; selectionStats := selectionStats s;
     diffStats := diffStats s;
     generalAnalyses := generalAnalyses s; comparisonAnalyses := comparisonAnalyses s |}.

Definition setComparisonFilters (fs : list IFilter) (s : BreakoutStore) : BreakoutStore :=
  {| mainField := mainField s;
     mainFieldFilters := mainFieldFilters s;
     comparisonFilters := fs;
     selection := selection s; diffGroup := diffGroup s;
     globalStats := globalStats s; selectionStats := selectionStats s;
     diffStats := diffStats s;
     generalAnalyses := generalAnalyses s; comparisonAnalyses := comparisonAnalyses s |}.

Definition updateGlobalStats (st : option FieldStats) (s : BreakoutStore) : BreakoutStore :=
  {| mainField := mainField s;
     mainFieldFilters := mainFieldFilters s;
     comparisonFilters := comparisonFilters s;
     selection := selection s; diffGroup := diffGroup s;
     globalStats := st; selectionStats := selectionStats s;
     diffStats := diffStats s;
     generalAnalyses := generalAnalyses s; comparisonAnalyses := comparisonAnalyses s |}.

Definition updateMainGroupStats (rows : list IRow) (st : option FieldStats)
    (s : BreakoutStore) : BreakoutStore :=
  {| mainField := mainField s;
     mainFieldFilters := mainFieldFilters s;
     comparisonFilters := comparisonFilters s;
     selection := rows; diffGroup := diffGroup s;
     globalStats := globalStats s; selectionStats := st;
     diffStats := diffStats s;
     generalAnalyses := generalAnalyses s; comparisonAnalyses := comparisonAnalyses s |}.

Definition updateGeneralAnalyses (analysis : list ISubgroupResult)
    (s : BreakoutStore) : BreakoutStore :=
  {| mainField := mainField s;
     mainFieldFilters := mainFieldFilters s;
     comparisonFilters := comparisonFilters s;
     selection := selection s; diffGroup := diffGroup s;
     globalStats := globalStats s; selectionStats := selectionStats s;
     diffStats := diffStats s;
     generalAnalyses := analysis; comparisonAnalyses := comparisonAnalyses s |}.

Definition updateComparisonGroupStats (rows : list IRow) (st : option FieldStats)
    (s : BreakoutStore) : BreakoutStore :=
  {| mainField := mainField s;
     mainFieldFilters := mainFieldFilters s;
     comparisonFilters := comparisonFilters s;
     selection := selection s; diffGroup := rows;
     globalStats := globalStats s; selectionStats := selectionStats s;
     diffStats := st;
     generalAnalyses := generalAnalyses s; comparisonAnalyses := comparisonAnalyses s |}.

Definition updateComparisonAnalyses (analysis : list ISubgroupResult)
    (s : BreakoutStore) : BreakoutStore :=
  {| mainField := mainField s;
     mainFieldFilters := mainFieldFilters s;
     comparisonFilters := comparisonFilters s;
     selection := selection s; diffGroup := diffGroup s;
     globalStats := globalStats s; selectionStats := selectionStats s;
     diffStats := diffStats s;
     generalAnalyses := generalAnalyses s; comparisonAnalyses := analysis |}.

(** *** The pipeline *)

Definition with_store (f : BreakoutStore -> BreakoutStore) (st : State) : State :=
  {| store := f (store st); pipe := pipe st;
     calls_analyzeContributions := calls_analyzeContributions st;
     calls_analyzeComparisons := calls_analyzeComparisons st |}.

Definition with_pipe (f : Pipeline -> Pipeline) (st : State) : State :=
  {| store := store st; pipe := f (pipe st);
     calls_analyzeContributions := calls_analyzeContributions st;
     calls_analyzeComparisons := calls_analyzeComparisons st |}.

Definition called_analyzeContributions (n : nat) (st : State) : State :=
  {| store := store st; pipe := pipe st;
     calls_analyzeContributions := calls_analyzeContributions st + n;
     calls_analyzeComparisons := calls_analyzeComparisons st |}.

Definition called_analyzeComparisons (n : nat) (st : State) : State :=
  {| store := store st; pipe := pipe st;
     calls_analyzeContributions := calls_analyzeContributions st;
     calls_analyzeComparisons := calls_analyzeComparisons st + n |}.

(** What the three [toStream] sources read, combined by [inputFlow$].  Every
    chain observes every change of the three fields, so the latest values
    its [combineLatest] holds are the fields themselves. *)
Definition inputFlow (s : BreakoutStore) : Input :=
  {| in_mainField := mainField s;
     in_mainFieldFilters := mainFieldFilters s;
     in_comparisonFilters := comparisonFilters s |}.

Definition set_base_mainGroup (m : MainGroupOut) (p : Pipeline) : Pipeline :=
  {| closed_global := closed_global p; closed_mainGroup := closed_mainGroup p;
     closed_generalAnalyses := closed_generalAnalyses p;
     closed_compareGroup := closed_compareGroup p;
     closed_comparisonAnalyses := closed_comparisonAnalyses p;
     th_global := th_global p; th_mainGroup := th_mainGroup p;
     th_generalAnalyses := th_generalAnalyses p; th_compareGroup := th_compareGroup p;
     th_base_mainGroup := th_base_mainGroup p;
     th_base_compareGroup := th_base_compareGroup p;
     th_base_global := th_base_global p;
     base_mainGroup := Some m;
     base_compareGroup := base_compareGroup p;
     base_global := base_global p |}.

Definition set_base_compareGroup (c : CompareGroupOut) (p : Pipeline) : Pipeline :=
  {| closed_global := closed_global p; closed_mainGroup := closed_mainGroup p;
     closed_generalAnalyses := closed_generalAnalyses p;
     closed_compareGroup := closed_compareGroup p;
     closed_comparisonAnalyses := closed_comparisonAnalyses p;
     th_global := th_global p; th_mainGroup := th_mainGroup p;
     th_generalAnalyses := th_generalAnalyses p; th_compareGroup := th_compareGroup p;
     th_base_mainGroup := th_base_mainGroup p;
     th_base_compareGroup := th_base_compareGroup p;
     th_base_global := th_base_global p;
     base_mainGroup := base_mainGroup p;
     base_compareGroup := Some c;
     base_global := base_global p |}.

Definition set_base_global (g : GlobalOut) (p : Pipeline) : Pipeline :=
  {| closed_global := closed_global p; closed_mainGroup := closed_mainGroup p;
     closed_generalAnalyses := closed_generalAnalyses p;
     closed_compareGroup := closed_compareGroup p;
     closed_comparisonAnalyses := closed_comparisonAnalyses p;
     th_global := th_global p; th_mainGroup := th_mainGroup p;
     th_generalAnalyses := th_generalAnalyses p; th_compareGroup := th_compareGroup p;
     th_base_mainGroup := th_base_mainGroup p;
     th_base_compareGroup := th_base_compareGroup p;
     th_base_global := th_base_global p;
     base_mainGroup := base_mainGroup p;
     base_compareGroup := base_compareGroup p;
     base_global := Some g |}.

(** [comparisonBase$] emits once each of its three sources has emitted, and
    then again at every emission of any of them; the callback of
    [comparisonAnalyses$] runs at each, and its subscriber publishes. *)
Definition comparisonBase_emit (st : State) : State :=
  match base_mainGroup (pipe st), base_compareGroup (pipe st), base_global (pipe st) with
  | Some mainGroup, Some compareGroup, Some global =>
      let '(analyses, n) :=
        comparisonAnalyses_stage fields mainGroup compareGroup global in
      called_analyzeComparisons n (with_store (updateComparisonAnalyses analyses) st)
  | _, _, _ => st
  end.

(** The throttle of chain [c] sends [input] downstream: the [map] callbacks
    run and the subscriber publishes.  A callback that throws ends the
    subscription with an error. *)
Definition deliver (c : Chain) (input : Input) (st : State) : State :=
  let global := global_stage data fields input in
  match c with
  | ChGlobal =>
      with_store (updateGlobalStats (g_globalStats global)) st
  | ChMainGroup =>
      let m := mainGroup_stage data fields global in
      with_store (updateMainGroupStats (mg_data m) (mg_stats m)) st
  | ChGeneralAnalyses =>
      let '(analysis, n) :=
        generalAnalyses_stage fields (mainGroup_stage data fields global) in
      called_analyzeContributions n (with_store (updateGeneralAnalyses analysis) st)
  | ChCompareGroup =>
      match compareGroup_stage data fields global with
      | Some cg => with_store (updateComparisonGroupStats (cg_data cg) (cg_stats cg)) st
      | None => with_pipe (unsubscribe SubCompareGroup) st
      end
  | ChBaseMainGroup =>
      comparisonBase_emit
        (with_pipe (set_base_mainGroup (mainGroup_stage data fields global)) st)
  | ChBaseCompareGroup =>
      match compareGroup_stage data fields global with
      | Some cg => comparisonBase_emit (with_pipe (set_base_compareGroup cg) st)
      | None => with_pipe (unsubscribe SubComparisonAnalyses) st
      end
  | ChBaseGlobal =>
      comparisonBase_emit (with_pipe (set_base_global global) st)
  end.

(** The throttle of chain [c] has handled a value or its timer: its new state
    is stored, and what it sends, if anything, goes downstream. *)
Definition resume (c : Chain) (r : Throttle * option Input) (st : State) : State :=
  let st := with_pipe (set_throttle c (fst r)) st in
  match snd r with
  | Some v => deliver c v st
  | None => st
  end.

(** [inputFlow$] emits [input] into chain [c] at time [t]. *)
Definition feed (t : nat) (input : Input) (st : State) (c : Chain) : State :=
  if closed (owner c) (pipe st) then st
  else resume c (throttle_next t input (throttle_of c (pipe st))) st.

(** The timer of the throttle of chain [c] fires at time [t]. *)
Definition fire (t : nat) (c : Chain) (st : State) : State :=
  if closed (owner c) (pipe st) then st
  else resume c (throttle_timer t (throttle_of c (pipe st))) st.

(** Modelled from the spec: [toStream] of [utils/mobx-utils], which is outside
    [src/] (sections 4.5 and 9): the observable made of a field emits the value
    of the field to each subscriber when it subscribes (the [true] argument) and
    whenever the field is given another reference.  A change of one of the
    three observed fields thus reaches every chain, in the order in which the
    constructor subscribed. *)
Definition notify (t : nat) (st : State) : State :=
  foldl (feed t (inputFlow (store st))) st chains.

(** [this.destroy = () => { for (const subscription of subscriptions) ... }] *)
Definition destroy (st : State) : State :=
  with_pipe (fun p => foldl (fun p sub => unsubscribe sub p) p subscriptions) st.

(** One event.  The three fields are [observable.ref]: a setter call notifies
    when the reference changes.  [null] over [null] is no change.  An object
    or array argument stands for a new object; a call that passes the very
    object the field already holds changes nothing and is no event. *)
Definition step (st : State) (e : Event) : State :=
  match action e with
  | SetMainField mf =>
      let st' := with_store (setMainField mf) st in
      match mainField (store st), mf with
      | None, None => st'
      | _, _ => notify (time e) st'
      end
  | SetMainFieldFilters fs => notify (time e) (with_store (setMainFieldFilters fs) st)
  | SetComparisonFilters fs => notify (time e) (with_store (setComparisonFilters fs) st)
  | Destroy => destroy st
  | TimerFires c => fire (time e) c st
  end.

Definition run (st : State) (events : list Event) : State := foldl step st events.

(** The fields as the constructor assigns them, before it subscribes. *)
Definition fresh : State :=
  {| store :=
       {| mainField := None; mainFieldFilters := []; comparisonFilters := [];
          selection := data; diffGroup := [];
          globalStats := None; selectionStats := None; diffStats := None;
          generalAnalyses := []; comparisonAnalyses := [] |};
     pipe :=
       {| closed_global := false; closed_mainGroup := false;
          closed_generalAnalyses := false; closed_compareGroup := false;
          closed_comparisonAnalyses := false;
          th_global := idle; th_mainGroup := idle; th_generalAnalyses := idle;
          th_compareGroup := idle; th_base_mainGroup := idle;
          th_base_compareGroup := idle; th_base_global := idle;
          base_mainGroup := None; base_compareGroup := None; base_global := None |};
     calls_analyzeContributions := 0;
     calls_analyzeComparisons := 0 |}.

(** [new BreakoutStore(data, fields)] at time [t0]: the sources are created
    with [toStream(..., true)], so each chain receives the initial inputs as
    soon as it is subscribed. *)
Definition new_store (t0 : nat) : State := notify t0 fresh.

(** *** Observations *)

(** Chain [c] keeps no value for a trailing emission: every wave started for
    it has completed. *)
Definition settled_chain (c : Chain) (st : State) : Prop :=
  sendValue (throttle_of c (pipe st)) = None.

Definition settled (st : State) : Prop := forall c, settled_chain c st.

Definition is_timer (e : Event) : Prop :=
  match action e with TimerFires _ => True | _ => False end.

Definition not_destroy (e : Event) : Prop :=
  match action e with Destroy => False | _ => True end.

(** The fields the five subscribers write, and the two counters. *)
Definition published (st : State) :=
  (globalStats (store st), selectionStats (store st), diffStats (store st),
   generalAnalyses (store st), comparisonAnalyses (store st),
   selection (store st), diffGroup (store st),
   calls_analyzeContributions st, calls_analyzeComparisons st).

(** *** The invariant of the pipeline *)

(** What chain [c] last delivered is what it delivers on [input]. *)
Definition up_to_date (c : Chain) (input : Input) (st : State) : Prop :=
  let global := global_stage data fields input in
  let mainGroup := mainGroup_stage data fields global in
  match c with
  | ChGlobal => globalStats (store st) = g_globalStats global
  | ChMainGroup =>
      selection (store st) = mg_data mainGroup
      /\ selectionStats (store st) = mg_stats mainGroup
  | ChGeneralAnalyses =>
      generalAnalyses (store st) = fst (generalAnalyses_stage fields mainGroup)
  | ChCompareGroup =>
      compareGroup_stage data fields global
      = Some {| cg_data := diffGroup (store st); cg_stats := diffStats (store st) |}
  | ChBaseMainGroup => base_mainGroup (pipe st) = Some mainGroup
  | ChBaseCompareGroup =>
      base_compareGroup (pipe st) = compareGroup_stage data fields global
  | ChBaseGlobal => base_global (pipe st) = Some global
  end.

(** A chain either keeps the current inputs for its trailing emission, or
    has delivered them. *)
Definition chain_ok (c : Chain) (st : State) : Prop :=
  match sendValue (throttle_of c (pipe st)) with
  | Some v => v = inputFlow (store st)
  | None => up_to_date c (inputFlow (store st)) st
  end.

Definition all_open (st : State) : Prop :=
  forall sub, closed sub (pipe st) = false.

Definition all_closed (st : State) : Prop :=
  forall sub, closed sub (pipe st) = true.

Definition invariant (st : State) : Prop :=
  all_open st /\ forall c, chain_ok c st.

(** Every running timer may fire by time [t]. *)
Definition due_by (t : nat) (st : State) : Prop :=
  forall c d, throttled (throttle_of c (pipe st)) = Some d -> d <= t.

(** A throttle whose timer does not run keeps no value. *)
Definition idle_is_empty (st : State) : Prop :=
  forall c, throttled (throttle_of c (pipe st)) = None ->
            sendValue (throttle_of c (pipe st)) = None.

(** The published row subsets are cut from the constructor dataset. *)
Definition refiltered (st : State) : Prop :=
  (exists filters, selection (store st) = fst (applyDividers data filters))
  /\ (diffGroup (store st) = []
      \/ exists filters, diffGroup (store st) = fst (applyDividers data filters)).

(** *** Bursts *)

(** How many more values the throttle can send, when every later event is at
    time [now] or later and every later setter call at time [last] or
    earlier, [last] being less than [duration] after the first event. *)
Definition budget (last now : nat) (th : Throttle) : nat :=
  if bool_decide (last < now) then
    match sendValue th with Some _ => 1 | None => 0 end
  else
    match throttled th with
    | Some d => if bool_decide (last < d) then 1 else 2
    | None => 2
    end.

(** The calls of [analyzeContributions] made so far plus those its chain can
    still make; likewise for [analyzeComparisons], whose callback runs at
    every emission of each of the three chains [comparisonBase$] combines. *)
Definition contributions_potential (last now : nat) (st : State) : nat :=
  calls_analyzeContributions st
  + budget last now (throttle_of ChGeneralAnalyses (pipe st)).

Definition comparisons_potential (last now : nat) (st : State) : nat :=
  calls_analyzeComparisons st
  + (budget last now (throttle_of ChBaseMainGroup (pipe st))
     + budget last now (throttle_of ChBaseCompareGroup (pipe st))
     + budget last now (throttle_of ChBaseGlobal (pipe st))).

(** The number of values a throttle sent: 0 or 1. *)
Definition sent (r : Throttle * option Input) : nat :=
  match snd r with Some _ => 1 | None => 0 end.

(** The events of a burst of [setMainFieldFilters] calls that ends by time
    [last]: such calls, and timers firing. *)
Definition burst_event (last : nat) (e : Event) : bool :=
  match action e with
  | SetMainFieldFilters _ => bool_decide (time e <= last)
  | TimerFires _ => true
  | _ => false
  end.

(** Times do not go back. *)
Fixpoint in_order (now : nat) (events : list Event) : bool :=
  match events with
  | [] => true
  | e :: rest => bool_decide (now <= time e) && in_order (time e) rest
  end.

End Store.

(** Unfolding hints for the proofs: the delivery, the throttles, the events and
    the invariant. *)
Create HintDb delivery.
#[global] Hint Unfold deliver comparisonBase_emit : delivery.
Create HintDb throttles.
#[global] Hint Unfold throttle_next throttle_timer : throttles.
Create HintDb resumes.
#[global] Hint Unfold resume : resumes.
Create HintDb feeds.
#[global] Hint Unfold feed fire : feeds.
Create HintDb events.
#[global] Hint Unfold step notify destroy new_store : events.
Create HintDb steps.
#[global] Hint Unfold step : steps.
Create HintDb inv.
#[global] Hint Unfold up_to_date invariant all_open settled settled_chain : inv.
Create HintDb timing.
#[global] Hint Unfold due_by idle_is_empty : timing.
Create HintDb bursts.
#[global] Hint Unfold budget contributions_potential comparisons_potential sent : bursts.
Create HintDb subsets.
#[global] Hint Unfold refiltered : subsets.
Create HintDb oks.
#[global] Hint Unfold chain_ok : oks.
Create HintDb stages.
#[global] Hint Unfold global_stage mainGroup_stage generalAnalyses_stage
  compareGroup_stage comparisonAnalyses_stage : stages.

(** ** An implementation of the imports, for the examples

    The five imported functions are outside [src/].  The examples below run
    the pipeline with these stand-ins, written after sections 4.1 to 4.4 of
    the specification. *)
Module Demo.

Definition num (z : Z) : number := inject_Z z.

Definition value_eqb (a b : Value) : bool :=
  match a, b with
  | VNum x, VNum y => Qeq_bool x y
  | VStr x, VStr y => bool_decide (x = y)
  | VNull, VNull => true
  | _, _ => false
  end.

(** A missing cell reads as [VNull]. *)
Definition cell (row : IRow) (id : string) : Value := default VNull (row !! id).

(** Modelled from the spec: one filter of [applyDividers] (section 4.1): a
    range is inclusive and fails on a missing or non-numeric cell; a value set
    is a membership test. *)
Definition passes (row : IRow) (f : IFilter) : bool :=
  match filter_rule f, cell row (filter_fid f) with
  | Range lo hi, VNum n => Qle_bool lo n && Qle_bool n hi
  | Range _ _, _ => false
  | OneOf values, v => existsb (value_eqb v) values
  end.

(** Modelled from the spec: [applyDividers] of [utils/stats] (section 4.1):
    the rows that satisfy all filters and the rows that fail one, in order. *)
Definition applyDividers (rows : list IRow) (filters : list IFilter)
  : list IRow * list IRow :=
  (List.filter (fun row => forallb (passes row) filters) rows,
   List.filter (fun row => negb (forallb (passes row) filters)) rows).

Definition numbers_of (rows : list IRow) (id : string) : list number :=
  omap (fun row => match cell row id with VNum n => Some n | _ => None end) rows.

(** Modelled from the spec: [statDivision] of [utils/stats] (section 4.2):
    the three aggregates of the target field over the subset; [mean] and
    [sum] skip the non-numeric cells, the mean of nothing is 0. *)
Definition statDivision (fullData subsetData : list IRow) (fields : list IFieldMeta)
    (targetFid : string) : Stats :=
  let xs := numbers_of subsetData targetFid in
  let total := Qred (foldr Qplus 0%Q xs) in
  let n := num (Z.of_nat (length xs)) in
  {| stats_mean := if bool_decide (length xs = 0) then 0%Q else Qred (total / n);
     stats_sum := total;
     stats_count := n |}.

(** Modelled from the spec: [resolveCompareTarget] of
    [components/controlPanel] (section 3): the target field of a main field,
    which may differ from the main field itself.  [target_of] names the
    target of each main field id. *)
Definition resolveCompareTarget (target_of : string -> string)
    (mf : BreakoutMainField) (fields : list IFieldMeta) : option CompareTarget :=
  match find_field fields (target_of (mf_fid mf)) with
  | Some f => Some {| field := f |}
  | None => None
  end.

(** A ranked candidate: the splitting field and the sizes of the two
    populations. *)
Record SubgroupResult := {
  sr_fid : string;
  sr_population : nat;
  sr_comparison : nat;
}.

(** The specification leaves the bucketing and the score of the analyzers
    open (section 9); these report one candidate per field other than the
    main field. *)
Definition analyzeContributions (population : list IRow) (fields : list IFieldMeta)
    (mf : BreakoutMainField) (globalValue : number) : list SubgroupResult :=
  map (fun f => {| sr_fid := fid f; sr_population := length population;
                   sr_comparison := 0 |})
      (List.filter (fun f => negb (bool_decide (fid f = mf_fid mf))) fields).

Definition analyzeComparisons (population comparison : list IRow)
    (fields : list IFieldMeta) (mf : BreakoutMainField) : list SubgroupResult :=
  map (fun f => {| sr_fid := fid f; sr_population := length population;
                   sr_comparison := length comparison |})
      (List.filter (fun f => negb (bool_decide (fid f = mf_fid mf))) fields).

Definition imports (target_of : string -> string) : Imports :=
  Build_Imports SubgroupResult (resolveCompareTarget target_of)
    applyDividers statDivision analyzeContributions analyzeComparisons.

(** The dataset of the examples of section 8 of the specification, with a
    second column. *)
Definition row (f g : Z) : IRow :=
  {[ "f"%string := VNum (num f); "g"%string := VNum (num g) ]}.

Definition data : list IRow := [row 10 1; row 20 2; row 30 3; row 40 4].

Definition fields : list IFieldMeta :=
  [ {| fid := "f"; name := "F"; semanticType := quantitative |};
    {| fid := "g"; name := "G"; semanticType := quantitative |} ].

Definition range (id : string) (lo hi : Z) : IFilter :=
  {| filter_fid := id; filter_rule := Range (num lo) (num hi); filter_id := None |}.

Definition mean_of_f : BreakoutMainField := {| mf_fid := "f"; aggregator := mean |}.

Definition at_ (t : nat) (a : Action) : Event := {| time := t; action := a |}.

(** The resolver that takes each main field to the field of the same id. *)
Definition plain : Imports := imports id.

(** A resolver whose target differs from the main field: the main field [f]
    is measured on the column [g]. *)
Definition retarget (id : string) : string :=
  if bool_decide (id = "f"%string) then "g"%string else id.

Definition retargeted : Imports := imports retarget.

(** The store built at time 0 on the example dataset, after [events]. *)
Abbreviation play I events :=
  (@run I data fields (@new_store I data fields 0) events).

(** The main field is set, then a filter on [f]; every wave completes. *)
Definition select_low : list Event :=
  timers 200
  ++ [at_ 1000 (SetMainField (Some mean_of_f))] ++ timers 1200
  ++ [at_ 2000 (SetMainFieldFilters [range "f" 0 25])] ++ timers 2200.

(** Then a comparison group is chosen. *)
Definition compare_high : list Event :=
  select_low
  ++ [at_ 3000 (SetComparisonFilters [range "f" 25 40])] ++ timers 3200.

(** Then the filter is widened and, 10 ms later, while the throttles hold
    values back, the main field is cleared. *)
Definition clearing : list Event :=
  compare_high
  ++ [at_ 3300 (SetMainFieldFilters [range "f" 0 30]); at_ 3310 (SetMainField None)].

(** Then the trailing wave completes. *)
Definition cleared : list Event := clearing ++ timers 3500 ++ timers 3700.

(** Ten [setMainFieldFilters] calls, 5 ms apart, from time 4000 on. *)
Definition burst_calls : list Event :=
  map (fun k => at_ (4000 + 5 * k)
                    (SetMainFieldFilters [range "f" 0 (16 + Z.of_nat k)]))
      (seq 0 10).

(** The burst, then the timers of the trailing wave and those that find
    nothing left to send. *)
Definition burst : list Event := burst_calls ++ timers 4200 ++ timers 4400.

(** The same three inputs reached another way: the comparison filters
    first, then the filter of the selection and the main field, all within
    one throttle window. *)
Definition compare_first : list Event :=
  timers 200
  ++ [at_ 500 (SetComparisonFilters [range "f" 25 40]);
      at_ 510 (SetMainFieldFilters [range "f" 0 25]);
      at_ 520 (SetMainField (Some mean_of_f))]
  ++ timers 700 ++ timers 900.

(** A main field on a column the dataset does not have, and a comparison
    group. *)
Definition mean_of_z : BreakoutMainField := {| mf_fid := "z"; aggregator := mean |}.

Definition select_unknown : list Event :=
  timers 200
  ++ [at_ 1000 (SetMainField (Some mean_of_z))] ++ timers 1200
  ++ [at_ 2000 (SetComparisonFilters [range "f" 25 40])] ++ timers 2200.

(** Filters are set and the main field is cleared, but no main field is ever
    chosen. *)
Definition filters_only : list Event :=
  timers 200
  ++ [at_ 1000 (SetMainFieldFilters [range "f" 0 25]);
      at_ 1010 (SetComparisonFilters [range "f" 25 40]);
      at_ 1020 (SetMainField None)]
  ++ timers 1200 ++ timers 1400.

(** Calls of the three setters within 20 ms, then the timers. *)
Definition mixed_burst : list Event :=
  [at_ 4000 (SetMainFieldFilters [range "f" 0 30]);
   at_ 4010 (SetComparisonFilters [range "f" 30 40]);
   at_ 4020 (SetMainField (Some {| mf_fid := "g"; aggregator := sum |}))]
  ++ timers 4200 ++ timers 4400.

End Demo.

(** ** More observations of the store *)

Section Observations.
Context `{Imports}.
Variable data : list IRow.
Variable fields : list IFieldMeta.

(** The seven fields the subscribers write. *)
Definition outputs (s : BreakoutStore) :=
  (globalStats s, selectionStats s, diffStats s,
   generalAnalyses s, comparisonAnalyses s, selection s, diffGroup s).

(** [comparisonAnalyses] is what the callback of [comparisonAnalyses$] returns
    on the three values [comparisonBase$] holds. *)
Definition base_published (st : State) : Prop :=
  match base_mainGroup (pipe st), base_compareGroup (pipe st), base_global (pipe st) with
  | Some mainGroup, Some compareGroup, Some global =>
      comparisonAnalyses (store st)
      = fst (comparisonAnalyses_stage fields mainGroup compareGroup global)
  | _, _, _ => True
  end.

(** A call of one of the three setters. *)
Definition is_setter (e : Event) : Prop :=
  match action e with
  | SetMainField _ | SetMainFieldFilters _ | SetComparisonFilters _ => True
  | Destroy | TimerFires _ => False
  end.

(** A setter call that changes the reference a field holds: every call but
    [setMainField(null)] on a [null] main field. *)
Definition changes_input (st : State) (e : Event) : Prop :=
  match action e with
  | SetMainField mf => is_Some (mainField (store st)) \/ is_Some mf
  | SetMainFieldFilters _ | SetComparisonFilters _ => True
  | Destroy | TimerFires _ => False
  end.

(** No timer runs; every timer runs. *)
Definition no_timer (st : State) : Prop :=
  forall c, throttled (throttle_of c (pipe st)) = None.

Definition all_timers (st : State) : Prop :=
  forall c, is_Some (throttled (throttle_of c (pipe st))).

(** The events of a burst of calls of any of the three setters that ends by
    time [last]: setter calls up to [last], and timers firing. *)
Definition window_event (last : nat) (e : Event) : bool :=
  match action e with
  | SetMainField _ | SetMainFieldFilters _ | SetComparisonFilters _ =>
      bool_decide (time e <= last)
  | TimerFires _ => true
  | Destroy => false
  end.

(** Any event but [setMainField] with a main field. *)
Definition leaves_main_null (e : Event) : Prop :=
  match action e with
  | SetMainField (Some _) => False
  | _ => True
  end.

(** No main field has reached the store or its pipeline, no analyzer has run
    and nothing but the selection is published. *)
Definition main_unset (st : State) : Prop :=
  mainField (store st) = None
  /\ (forall c v, sendValue (throttle_of c (pipe st)) = Some v -> in_mainField v = None)
  /\ (forall g, base_global (pipe st) = Some g -> in_mainField (g_input g) = None)
  /\ calls_analyzeContributions st = 0
  /\ calls_analyzeComparisons st = 0
  /\ globalStats (store st) = None
  /\ selectionStats (store st) = None
  /\ diffStats (store st) = None
  /\ generalAnalyses (store st) = []
  /\ comparisonAnalyses (store st) = []
  /\ diffGroup (store st) = [].

(** [comparisonBase$] holds a value of each of its sources, [g] in its
    [global] slot, and its subscription is open. *)
Definition comparing (st : State) (g : GlobalOut) : Prop :=
  closed SubComparisonAnalyses (pipe st) = false
  /\ is_Some (base_mainGroup (pipe st))
  /\ is_Some (base_compareGroup (pipe st))
  /\ base_global (pipe st) = Some g.

(** The guard of the callback of [comparisonAnalyses$],
    [if (!mainField || comparisonFilters.length === 0) return []], counted:
    the calls of [analyzeComparisons] in one run of the callback on the
    inputs [i]. *)
Definition comparison_runs (i : Input) : nat :=
  match in_mainField i, in_comparisonFilters i with
  | Some _, _ :: _ => 1
  | _, _ => 0
  end.

End Observations.

Create HintDb deliver_only.
#[global] Hint Unfold deliver : deliver_only.
Create HintDb observations.
#[global] Hint Unfold base_published no_timer all_timers main_unset : observations.
Create HintDb comparing.
#[global] Hint Unfold comparing : comparing.

(** * Properties *)

(** ** [exportFilters] and [export] *)

Lemma find_field_Some fieldMetas id f :
  find_field fieldMetas id = Some f -> f ∈ fieldMetas /\ fid f = id.
Proof.
  unfold find_field. intros Hf. apply find_some in Hf as [Hin Heq].
  split; [by apply list_elem_of_In | by apply bool_decide_eq_true in Heq].
Qed.

Lemma find_field_is_Some fieldMetas id :
  is_Some (find_field fieldMetas id) <-> id ∈ fid <$> fieldMetas.
Proof.
  unfold find_field. induction fieldMetas as [|f fs IH]; simpl.
  - split; [intros [? ?]; discriminate | by intros ?%elem_of_nil].
  - rewrite elem_of_cons. case_bool_decide as Hid.
    + split; [intros _; by left | by eauto].
    + rewrite IH. split; [by right | intros [?|?]; [congruence | done]].
Qed.

Lemma exportFilters_filters filters fieldMetas :
  ef_filter <$> exportFilters filters fieldMetas
  = filter (fun f => filter_fid f ∈ fid <$> fieldMetas) filters.
Proof.
  induction filters as [|f fs IH]; [done|]. cbn [exportFilters].
  destruct (find_field fieldMetas (filter_fid f)) as [m|] eqn:Hfind.
  - rewrite filter_cons_True by (apply find_field_is_Some; by rewrite Hfind).
    by rewrite fmap_cons, IH.
  - rewrite filter_cons_False; [done|].
    intros Hin%find_field_is_Some. rewrite Hfind in Hin. by destruct Hin.
Qed.

Lemma exportFilters_annotated filters fieldMetas :
  Forall (fun e =>
            exists f, find_field fieldMetas (filter_fid (ef_filter e)) = Some f
                      /\ ef_name e = name f /\ ef_semanticType e = semanticType f)
         (exportFilters filters fieldMetas).
Proof.
  induction filters as [|f fs IH]; simpl; [constructor|].
  destruct (find_field fieldMetas (filter_fid f)) as [m|] eqn:Hfind; [|done].
  constructor; [|done]. by exists m.
Qed.

Section ExportProperties.
Context `{Imports}.
Variable fields : list IFieldMeta.

(** C5: the two filter lists of [export()] hold exactly the current filters
    whose fid occurs in [fields], in their order, each with the name and the
    semantic type of the field [find] returns for that fid; the others are
    left out.  [export] is a total function: nothing is raised. *)
Theorem export_filters (s : BreakoutStore) :
  let ex := export fields s in
  (ef_filter <$> ex_mainFieldFilters ex
     = filter (fun f => filter_fid f ∈ fid <$> fields) (mainFieldFilters s)
   /\ ef_filter <$> ex_comparisonFilters ex
     = filter (fun f => filter_fid f ∈ fid <$> fields) (comparisonFilters s))
  /\ forall e, e ∈ ex_mainFieldFilters ex ++ ex_comparisonFilters ex ->
       exists f, f ∈ fields /\ fid f = filter_fid (ef_filter e)
                 /\ find_field fields (filter_fid (ef_filter e)) = Some f
                 /\ ef_name e = name f /\ ef_semanticType e = semanticType f.
Proof.
  cbn. split; [split; apply exportFilters_filters|].
  intros e He.
  assert (exists f, find_field fields (filter_fid (ef_filter e)) = Some f
                    /\ ef_name e = name f /\ ef_semanticType e = semanticType f)
    as (f & Hf & Hn & Ht).
  { apply elem_of_app in He as [He|He];
      eapply (proj1 (Forall_forall _ _)) in He; try apply exportFilters_annotated;
      exact He. }
  exists f. destruct (find_field_Some _ _ _ Hf). eauto.
Qed.

(** C10: the exported main field is non-null exactly when the main field is
    set and [resolveCompareTarget] resolves it; it is then the main field
    with the name and the semantic type of the target.  A main field that is
    set and does not resolve is exported as [null]. *)
Theorem export_mainField (s : BreakoutStore) :
  (is_Some (ex_mainField (export fields s))
   <-> exists mf, mainField s = Some mf /\ is_Some (resolveCompareTarget mf fields))
  /\ (forall mf t, mainField s = Some mf -> resolveCompareTarget mf fields = Some t ->
        ex_mainField (export fields s)
        = Some {| mfe_main := mf; mfe_name := name (field t);
                  mfe_semanticType := semanticType (field t) |})
  /\ (forall mf, mainField s = Some mf -> resolveCompareTarget mf fields = None ->
        ex_mainField (export fields s) = None).
Proof.
  unfold export; cbn. split; [|split].
  - destruct (mainField s) as [mf|].
    + destruct (resolveCompareTarget mf fields) as [t|] eqn:Ht.
      * split; [intros _; exists mf; by rewrite Ht | by eauto].
      * split; [by intros [? ?] | intros (mf' & [= <-] & Hs)].
        rewrite Ht in Hs. by destruct Hs.
    + split; [by intros [? ?] | by intros (? & ? & _)].
  - intros mf t -> ->. done.
  - intros mf -> ->. done.
Qed.

End ExportProperties.

(** ** The stages *)

Section StageProperties.
Context `{Imports}.
Variable data : list IRow.
Variable fields : list IFieldMeta.

Local Abbreviation global_stage := (global_stage data fields).
Local Abbreviation mainGroup_stage := (mainGroup_stage data fields).
Local Abbreviation compareGroup_stage := (compareGroup_stage data fields).
Local Abbreviation generalAnalyses_stage := (generalAnalyses_stage fields).

Lemma global_stats_resolved input gs :
  g_globalStats (global_stage input) = Some gs ->
  exists mf t, in_mainField input = Some mf
               /\ resolveCompareTarget mf fields = Some t
               /\ g_targetField (global_stage input) = Some t
               /\ gs = {| definition := mf; fs_field := field t;
                          stats := statDivision data data fields (fid (field t)) |}.
Proof.
  unfold global_stage; cbn.
  destruct (in_mainField input) as [mf|]; [|done].
  destruct (resolveCompareTarget mf fields) as [t|] eqn:Ht; [|done].
  intros [= <-]. by exists mf, t.
Qed.

(** The stats of [mainGroup$] are annotated with the target field and taken
    over the column of the main field. *)
Lemma mainGroup_stats_column input st :
  mg_stats (mainGroup_stage (global_stage input)) = Some st ->
  exists mf t,
    in_mainField input = Some mf
    /\ resolveCompareTarget mf fields = Some t
    /\ st = {| definition := mf; fs_field := field t;
               stats := statDivision data
                          (fst (applyDividers data (in_mainFieldFilters input)))
                          fields (mf_fid mf) |}.
Proof.
  unfold mainGroup_stage, global_stage; cbn.
  destruct (in_mainField input) as [mf|]; [|done].
  destruct (resolveCompareTarget mf fields) as [t|] eqn:Ht; [|done].
  case_bool_decide; [|done]. intros [= <-]. by exists mf, t.
Qed.

(** The callback of [compareGroup$] never throws on what [global$] emits. *)
Lemma compareGroup_stage_total input :
  is_Some (compareGroup_stage (global_stage input)).
Proof.
  unfold compareGroup_stage.
  destruct (g_globalStats (global_stage input)) as [gs|] eqn:Hgs.
  - apply global_stats_resolved in Hgs as (mf & t & Hmf & Ht & _ & _).
    cbn. rewrite Hmf, Ht. by case_bool_decide.
  - cbn in *. by destruct (in_mainField input).
Qed.

(** C9: when the guard of [compareGroup$] passes, the second
    [resolveCompareTarget(mainField, fields)] is not [null], and the callback
    returns the filtered rows with their stats instead of throwing. *)
Theorem compareGroup_target_resolved input mf gs :
  in_mainField input = Some mf ->
  g_globalStats (global_stage input) = Some gs ->
  in_comparisonFilters input <> [] ->
  exists t,
    resolveCompareTarget mf fields = Some t
    /\ compareGroup_stage (global_stage input)
       = Some {| cg_data := fst (applyDividers data (in_comparisonFilters input));
                 cg_stats :=
                   Some {| definition := mf; fs_field := field t;
                           stats :=
                             statDivision data
                               (fst (applyDividers data (in_comparisonFilters input)))
                               fields (mf_fid mf) |} |}.
Proof.
  intros Hmf Hgs Hne.
  apply global_stats_resolved in Hgs as Hres.
  destruct Hres as (mf' & t & Hmf' & Ht & _ & _).
  assert (mf' = mf) as -> by congruence.
  exists t. split; [done|].
  unfold compareGroup_stage. rewrite Hgs. cbn. rewrite Hmf, Ht.
  rewrite bool_decide_eq_false_2; [done|].
  by destruct (in_comparisonFilters input).
Qed.

End StageProperties.

(** ** The pipeline *)

Section PipelineProperties.
Context `{Imports}.
Variable data : list IRow.
Variable fields : list IFieldMeta.

Local Abbreviation global_stage := (global_stage data fields).
Local Abbreviation mainGroup_stage := (mainGroup_stage data fields).
Local Abbreviation compareGroup_stage := (compareGroup_stage data fields).
Local Abbreviation generalAnalyses_stage := (generalAnalyses_stage fields).
Local Abbreviation deliver := (deliver data fields).
Local Abbreviation resume := (resume data fields).
Local Abbreviation feed := (feed data fields).
Local Abbreviation fire := (fire data fields).
Local Abbreviation notify := (notify data fields).
Local Abbreviation step := (step data fields).
Local Abbreviation run := (run data fields).
Local Abbreviation new_store := (new_store data fields).
Local Abbreviation up_to_date := (up_to_date data fields).
Local Abbreviation chain_ok := (chain_ok data fields).
Local Abbreviation invariant := (invariant data fields).
Local Abbreviation refiltered := (refiltered data).
Local Abbreviation destroy := (@destroy _).

(** *** The accessors of the pipeline state *)

Lemma throttle_of_set c c' th p :
  throttle_of c' (set_throttle c th p) = if decide (c = c') then th else throttle_of c' p.
Proof. by destruct c, c'. Qed.

Lemma closed_set_throttle sub c th p : closed sub (set_throttle c th p) = closed sub p.
Proof. by destruct sub. Qed.

(** *** What a delivery changes *)

Ltac deliver_cases c v :=
  let cg := fresh "cg" in
  let Hcg := fresh "Hcg" in
  destruct (compareGroup_stage_total data fields v) as [cg Hcg];
  autounfold with delivery;
  destruct c; cbn; rewrite ?Hcg; cbn; repeat case_match; cbn.

Lemma deliver_inputFlow c v st :
  inputFlow (store (deliver c v st)) = inputFlow (store st).
Proof. deliver_cases c v; done. Qed.

Lemma deliver_closed c v st sub :
  closed sub (pipe (deliver c v st)) = closed sub (pipe st).
Proof. deliver_cases c v; by destruct sub. Qed.

Lemma deliver_throttle c v st c' :
  throttle_of c' (pipe (deliver c v st)) = throttle_of c' (pipe st).
Proof. deliver_cases c v; by destruct c'. Qed.

Lemma deliver_up_to_date c v st : up_to_date c v (deliver c v st).
Proof.
  deliver_cases c v; autounfold with inv; cbn; rewrite ?Hcg;
    try done; try (by destruct cg); simplify_eq/=; done.
Qed.

Lemma deliver_frame c v st c' i :
  c <> c' -> up_to_date c' i st -> up_to_date c' i (deliver c v st).
Proof.
  intros Hne. deliver_cases c v; destruct c'; try done.
Qed.

Lemma up_to_date_set_throttle c th c' i st :
  up_to_date c' i (with_pipe (set_throttle c th) st) <-> up_to_date c' i st.
Proof. by destruct c'. Qed.

(** *** What a throttle changes *)

Lemma resume_inputFlow c r st :
  inputFlow (store (resume c r st)) = inputFlow (store st).
Proof.
  autounfold with resumes. destruct (snd r); [|done].
  by rewrite deliver_inputFlow.
Qed.

Lemma resume_closed c r st sub :
  closed sub (pipe (resume c r st)) = closed sub (pipe st).
Proof.
  autounfold with resumes. destruct (snd r); rewrite ?deliver_closed; cbn;
    by rewrite closed_set_throttle.
Qed.

Lemma resume_throttle c r st c' :
  throttle_of c' (pipe (resume c r st))
  = if decide (c = c') then fst r else throttle_of c' (pipe st).
Proof.
  autounfold with resumes. destruct (snd r); rewrite ?deliver_throttle; cbn;
    by rewrite throttle_of_set.
Qed.

Lemma resume_frame c r st c' i :
  c <> c' -> up_to_date c' i st -> up_to_date c' i (resume c r st).
Proof.
  intros Hne Hup. autounfold with resumes. destruct (snd r).
  - apply deliver_frame; [done|]. by apply up_to_date_set_throttle.
  - by apply up_to_date_set_throttle.
Qed.

Lemma resume_sent c th v st : up_to_date c v (resume c (th, Some v) st).
Proof. apply deliver_up_to_date. Qed.

Lemma resume_kept c th i st :
  up_to_date c i st -> up_to_date c i (resume c (th, None) st).
Proof. intros Hup. by apply up_to_date_set_throttle. Qed.

(** *** Feeding a chain *)

Lemma feed_inputFlow t i st c : inputFlow (store (feed t i st c)) = inputFlow (store st).
Proof.
  autounfold with feeds. destruct (closed _ _); [done|]. apply resume_inputFlow.
Qed.

Lemma feed_closed t i st c sub :
  closed sub (pipe (feed t i st c)) = closed sub (pipe st).
Proof.
  autounfold with feeds. destruct (closed (owner c) (pipe st)); [done|].
  apply resume_closed.
Qed.

Lemma feed_throttle_other t i st c c' :
  c <> c' -> throttle_of c' (pipe (feed t i st c)) = throttle_of c' (pipe st).
Proof.
  intros Hne. autounfold with feeds. destruct (closed (owner c) (pipe st)); [done|].
  rewrite resume_throttle. by case_decide.
Qed.

Lemma feed_establishes t st c :
  closed (owner c) (pipe st) = false ->
  chain_ok c (feed t (inputFlow (store st)) st c).
Proof.
  intros Hopen. autounfold with feeds oks. rewrite Hopen.
  rewrite resume_throttle, resume_inputFlow, decide_True by done.
  unfold throttle_next. destruct (throttled (throttle_of c (pipe st))); cbn; [done|].
  apply resume_sent.
Qed.

Lemma feed_preserves t i st c c' :
  c <> c' -> chain_ok c' st -> chain_ok c' (feed t i st c).
Proof.
  intros Hne. autounfold with oks.
  rewrite feed_throttle_other, feed_inputFlow by done.
  destruct (sendValue (throttle_of c' (pipe st))); [done|].
  autounfold with feeds. destruct (closed (owner c) (pipe st)); [done|].
  by apply resume_frame.
Qed.

(** *** A timer fires *)

Lemma fire_inputFlow t c st : inputFlow (store (fire t c st)) = inputFlow (store st).
Proof.
  autounfold with feeds. destruct (closed _ _); [done|]. apply resume_inputFlow.
Qed.

Lemma fire_closed t c st sub :
  closed sub (pipe (fire t c st)) = closed sub (pipe st).
Proof.
  autounfold with feeds. destruct (closed (owner c) (pipe st)); [done|].
  apply resume_closed.
Qed.

Lemma fire_throttle_other t st c c' :
  c <> c' -> throttle_of c' (pipe (fire t c st)) = throttle_of c' (pipe st).
Proof.
  intros Hne. autounfold with feeds. destruct (closed (owner c) (pipe st)); [done|].
  rewrite resume_throttle. by case_decide.
Qed.

Lemma fire_preserves t st c c' : chain_ok c' st -> chain_ok c' (fire t c st).
Proof.
  destruct (decide (c = c')) as [<-|Hne].
  - autounfold with feeds oks.
    destruct (closed (owner c) (pipe st)); [done|].
    rewrite resume_throttle, resume_inputFlow, decide_True by done.
    unfold throttle_timer.
    destruct (throttled (throttle_of c (pipe st))) as [d|]; cbn; [|done].
    case_bool_decide; cbn; [|done].
    destruct (sendValue (throttle_of c (pipe st))) as [v|]; cbn.
    + intros ->. apply resume_sent.
    + apply resume_kept.
  - autounfold with oks.
    rewrite fire_throttle_other, fire_inputFlow by done.
    destruct (sendValue (throttle_of c' (pipe st))); [done|].
    autounfold with feeds. destruct (closed (owner c) (pipe st)); [done|].
    by apply resume_frame.
Qed.

(** *** Events *)

Lemma feed_all t i cs : forall st,
  all_open st -> i = inputFlow (store st) ->
  let st' := foldl (feed t i) st cs in
  all_open st' /\ inputFlow (store st') = i
  /\ forall c, c ∈ cs \/ chain_ok c st -> chain_ok c st'.
Proof.
  induction cs as [|c0 cs IH]; intros st Hopen Hi; cbn.
  - split; [done|]. split; [done|]. intros c [Hin|Hok]; [|done].
    by apply elem_of_nil in Hin.
  - destruct (IH (feed t i st c0)) as (Hopen' & Hi' & Hok').
    + intros sub. by rewrite feed_closed.
    + by rewrite feed_inputFlow.
    + split; [done|]. split; [done|]. intros c Hc. apply Hok'.
      destruct (decide (c0 = c)) as [<-|Hne].
      * right. subst i. by apply feed_establishes.
      * destruct Hc as [Hin|Hok]; [left | right].
        -- apply elem_of_cons in Hin as [?|?]; [congruence | done].
        -- by apply feed_preserves.
Qed.

Lemma chains_complete c : c ∈ chains.
Proof. unfold chains. destruct c; set_solver. Qed.

Lemma notify_invariant t st : all_open st -> invariant (notify t st).
Proof.
  intros Hopen. autounfold with events.
  destruct (feed_all t (inputFlow (store st)) chains st Hopen eq_refl)
    as (Hopen' & _ & Hok).
  split; [done|]. intros c. apply Hok. left. apply chains_complete.
Qed.

Lemma notify_inputFlow t st : inputFlow (store (notify t st)) = inputFlow (store st).
Proof.
  autounfold with events. generalize (inputFlow (store st)) at 1. intros i.
  revert st. induction chains as [|c cs IH]; intros st; cbn; [done|].
  by rewrite IH, feed_inputFlow.
Qed.

Lemma step_invariant st e : not_destroy e -> invariant st -> invariant (step st e).
Proof.
  intros Hnd [Hopen Hok]. unfold not_destroy in Hnd. autounfold with events.
  destruct (action e) as [mf|fs|fs| |c]; try done.
  - destruct (mainField (store st)) as [old|] eqn:Hold;
      [by apply notify_invariant|].
    destruct mf as [mf|]; [by apply notify_invariant|].
    split; [done|]. intros c. specialize (Hok c). autounfold with oks in *.
    replace (inputFlow (store (with_store (setMainField None) st)))
      with (inputFlow (store st)) by (unfold inputFlow; cbn; by rewrite Hold).
    cbn. destruct (sendValue (throttle_of c (pipe st))); [done|]. by destruct c.
  - by apply notify_invariant.
  - by apply notify_invariant.
  - split.
    + intros sub. by rewrite fire_closed.
    + intros c'. by apply fire_preserves.
Qed.

Lemma new_store_invariant t0 : invariant (new_store t0).
Proof. apply notify_invariant. by intros []. Qed.

Lemma run_invariant events : forall st,
  Forall not_destroy events -> invariant st -> invariant (run st events).
Proof.
  induction events as [|e events IH]; intros st Hnd Hinv; [done|].
  apply Forall_cons in Hnd as [He Hnd]. cbn. apply IH; [done|].
  by apply step_invariant.
Qed.

(** *** Settled states *)

Lemma settled_up_to_date c st :
  invariant st -> settled_chain c st -> up_to_date c (inputFlow (store st)) st.
Proof.
  intros [_ Hok] Hs. specialize (Hok c). autounfold with oks inv in *.
  by rewrite Hs in Hok.
Qed.

(** C2: in a state reached from the constructor by setter calls and timers
    in which every wave has completed, the three stats are [null] when
    [mainField] is [null], [selectionStats] is [null] when [mainFieldFilters]
    is empty, and [diffStats] is [null] when [comparisonFilters] is empty. *)
Theorem stats_null_without_inputs t0 events :
  Forall not_destroy events ->
  let st := run (new_store t0) events in
  settled st ->
  (mainField (store st) = None ->
     globalStats (store st) = None /\ selectionStats (store st) = None
     /\ diffStats (store st) = None)
  /\ (mainFieldFilters (store st) = [] -> selectionStats (store st) = None)
  /\ (comparisonFilters (store st) = [] -> diffStats (store st) = None).
Proof.
  intros Hnd st Hs.
  assert (invariant st) as Hinv by (apply run_invariant, new_store_invariant; done).
  pose proof (settled_up_to_date ChGlobal st Hinv (Hs _)) as Hg.
  pose proof (settled_up_to_date ChMainGroup st Hinv (Hs _)) as [_ Hm].
  pose proof (settled_up_to_date ChCompareGroup st Hinv (Hs _)) as Hc.
  autounfold with inv stages in *. cbn in *.
  split; [|split].
  - intros Hmf. rewrite Hmf in *. by simplify_eq.
  - intros Hfs. rewrite Hm, Hfs. by repeat case_match.
  - intros Hfs. rewrite Hfs in Hc. repeat case_match; by simplify_eq.
Qed.

(** C4: in every wave the [generalAnalyses$] subscriber publishes
    [analyzeContributions] of the selection of that wave, the fields, the
    main field and the entry of the global stats of that wave for its
    aggregator when the main field and the global stats are non-null, and
    the empty list otherwise; once the waves have completed, these are the
    published selection and global stats. *)
Theorem generalAnalyses_published t0 events :
  (forall input st,
     let global := global_stage input in
     generalAnalyses (store (deliver ChGeneralAnalyses input st))
     = match in_mainField input, g_globalStats global with
       | Some mf, Some gs =>
           analyzeContributions (mg_data (mainGroup_stage global)) fields mf
             (stats_at (stats gs) (aggregator mf))
       | _, _ => []
       end)
  /\ (Forall not_destroy events ->
      let st := run (new_store t0) events in
      settled st ->
      generalAnalyses (store st)
      = match mainField (store st), globalStats (store st) with
        | Some mf, Some gs =>
            analyzeContributions (selection (store st)) fields mf
              (stats_at (stats gs) (aggregator mf))
        | _, _ => []
        end).
Proof.
  split.
  - intros input st. autounfold with delivery stages. cbn.
    destruct (in_mainField input) as [mf|]; [|done].
    by destruct (resolveCompareTarget mf fields).
  - intros Hnd st Hs.
    assert (invariant st) as Hinv by (apply run_invariant, new_store_invariant; done).
    pose proof (settled_up_to_date ChGlobal st Hinv (Hs _)) as Hg.
    pose proof (settled_up_to_date ChMainGroup st Hinv (Hs _)) as [Hsel _].
    pose proof (settled_up_to_date ChGeneralAnalyses st Hinv (Hs _)) as Ha.
    autounfold with inv in *. rewrite Ha, Hg, Hsel.
    autounfold with stages; cbn.
    destruct (mainField (store st)) as [mf|]; [|done].
    by destruct (resolveCompareTarget mf fields).
Qed.

(** *** The published subsets *)

Lemma compareGroup_stage_rows g cg :
  compareGroup_stage g = Some cg ->
  cg_data cg = [] \/ exists filters, cg_data cg = fst (applyDividers data filters).
Proof.
  autounfold with stages. intros Hcg.
  repeat case_match; simplify_eq/=; eauto.
Qed.

Lemma deliver_refiltered c v st : refiltered st -> refiltered (deliver c v st).
Proof.
  intros [Hsel Hdiff]. autounfold with subsets.
  destruct (compareGroup_stage (global_stage v)) as [cg|] eqn:Hcg.
  - pose proof (compareGroup_stage_rows _ _ Hcg) as Hrows.
    autounfold with delivery. destruct c; cbn; rewrite ?Hcg; cbn;
      repeat case_match; cbn; eauto.
  - autounfold with delivery. destruct c; cbn; rewrite ?Hcg; cbn;
      repeat case_match; cbn; eauto.
Qed.

Lemma resume_refiltered c r st : refiltered st -> refiltered (resume c r st).
Proof.
  intros Hst. autounfold with resumes. destruct (snd r); [|done].
  by apply deliver_refiltered.
Qed.

Lemma notify_refiltered t st : refiltered st -> refiltered (notify t st).
Proof.
  autounfold with events. generalize (inputFlow (store st)). intros i.
  revert st. induction chains as [|c cs IH]; intros st Hst; cbn; [done|].
  apply IH. autounfold with feeds. destruct (closed _ _); [done|].
  by apply resume_refiltered.
Qed.

Lemma step_refiltered st e : refiltered st -> refiltered (step st e).
Proof.
  intros Hst. autounfold with events. destruct (action e) as [mf|fs|fs| |c].
  - repeat case_match; try done; by apply notify_refiltered.
  - by apply notify_refiltered.
  - by apply notify_refiltered.
  - done.
  - autounfold with feeds. destruct (closed _ _); [done|].
    by apply resume_refiltered.
Qed.

Lemma new_store_refiltered t0 : refiltered (new_store t0).
Proof. split; [by exists [] | by left]. Qed.

Lemma run_refiltered events : forall st, refiltered st -> refiltered (run st events).
Proof.
  induction events as [|e events IH]; intros st Hst; [done|].
  cbn. apply IH. by apply step_refiltered.
Qed.

(** C3: once the waves have completed, [selection] is the matched part of
    [applyDividers] on the constructor dataset and the current
    [mainFieldFilters], and [diffGroup] that on the current
    [comparisonFilters], or [[]] where the stage short-circuits.  In every
    state, also between waves and after [destroy], both are matched parts of
    [applyDividers] on the constructor dataset ([diffGroup] possibly [[]]),
    hence sublists of it when [applyDividers] returns a sublist of its rows. *)
Theorem subsets_of_original t0 events :
  (forall rows filters, fst (applyDividers rows filters) `sublist_of` rows) ->
  let st := run (new_store t0) events in
  (Forall not_destroy events -> settled st ->
     selection (store st) = fst (applyDividers data (mainFieldFilters (store st)))
     /\ diffGroup (store st)
        = match mainField (store st), globalStats (store st),
                comparisonFilters (store st) with
          | Some _, Some _, _ :: _ =>
              fst (applyDividers data (comparisonFilters (store st)))
          | _, _, _ => []
          end)
  /\ refiltered st
  /\ selection (store st) `sublist_of` data
  /\ diffGroup (store st) `sublist_of` data.
Proof.
  intros Hsub st.
  assert (refiltered st) as Href by apply run_refiltered, new_store_refiltered.
  split; [|split; [done|]].
  - intros Hnd Hs.
    assert (invariant st) as Hinv by (apply run_invariant, new_store_invariant; done).
    pose proof (settled_up_to_date ChGlobal st Hinv (Hs _)) as Hg.
    pose proof (settled_up_to_date ChMainGroup st Hinv (Hs _)) as [Hsel _].
    pose proof (settled_up_to_date ChCompareGroup st Hinv (Hs _)) as Hc.
    split; [done|].
    autounfold with inv stages in *. cbn in *. rewrite Hg.
    repeat case_match; by simplify_eq/=.
  - destruct Href as [[fs ->] [-> | [fs' ->]]]; split; try done.
    apply sublist_nil_l.
Qed.

(** *** Repeating a setter call *)

Lemma is_timer_not_destroy e : is_timer e -> not_destroy e.
Proof. unfold is_timer, not_destroy. by destruct (action e). Qed.

Lemma timers_inputFlow timers : forall st,
  Forall is_timer timers -> inputFlow (store (run st timers)) = inputFlow (store st).
Proof.
  induction timers as [|e timers IH]; intros st Ht; [done|].
  apply Forall_cons in Ht as [He Ht].
  change (inputFlow (store (run (step st e) timers)) = inputFlow (store st)).
  rewrite IH by done.
  unfold is_timer in He. autounfold with events.
  destruct (action e); try done. apply fire_inputFlow.
Qed.

Lemma call_then_timers st e timers :
  invariant st -> not_destroy e -> Forall is_timer timers ->
  settled_chain ChMainGroup (run (step st e) timers) ->
  selectionStats (store (run (step st e) timers))
  = mg_stats (mainGroup_stage (global_stage (inputFlow (store (step st e))))).
Proof.
  intros Hinv He Ht Hs.
  assert (invariant (run (step st e) timers)) as Hinv'.
  { apply run_invariant; [|by apply step_invariant].
    eapply Forall_impl; [exact Ht | apply is_timer_not_destroy]. }
  rewrite <- (timers_inputFlow timers (step st e) Ht).
  by destruct (settled_up_to_date ChMainGroup _ Hinv' Hs) as [_ ->].
Qed.

Lemma setMainFieldFilters_inputFlow st t fs :
  inputFlow (store (step st {| time := t; action := SetMainFieldFilters fs |}))
  = {| in_mainField := mainField (store st);
       in_mainFieldFilters := fs;
       in_comparisonFilters := comparisonFilters (store st) |}.
Proof. exact (notify_inputFlow t (with_store (setMainFieldFilters fs) st)). Qed.

(** C8: from a state of a live store, two successive [setMainFieldFilters]
    calls with the same filters, each followed by timers until its wave has
    completed, publish the same [selectionStats]: the value the [mainGroup$]
    callback computes from the dataset, the fields, the main field and the
    filters. *)
Theorem setMainFieldFilters_twice t0 events filters t1 t2 timers1 timers2 :
  Forall not_destroy events ->
  Forall is_timer timers1 ->
  Forall is_timer timers2 ->
  let st := run (new_store t0) events in
  let call t := {| time := t; action := SetMainFieldFilters filters |} in
  let st1 := run (step st (call t1)) timers1 in
  let st2 := run (step st1 (call t2)) timers2 in
  settled_chain ChMainGroup st1 ->
  settled_chain ChMainGroup st2 ->
  selectionStats (store st1) = selectionStats (store st2)
  /\ selectionStats (store st2)
     = mg_stats (mainGroup_stage (global_stage
         {| in_mainField := mainField (store st);
            in_mainFieldFilters := filters;
            in_comparisonFilters := comparisonFilters (store st) |})).
Proof.
  intros Hnd Ht1 Ht2 st call st1 st2 Hs1 Hs2.
  assert (invariant st) as Hinv by (apply run_invariant, new_store_invariant; done).
  assert (invariant st1) as Hinv1.
  { apply run_invariant; [|by apply step_invariant].
    eapply Forall_impl; [exact Ht1 | apply is_timer_not_destroy]. }
  pose proof (call_then_timers st (call t1) timers1 Hinv I Ht1 Hs1) as Hst1.
  pose proof (call_then_timers st1 (call t2) timers2 Hinv1 I Ht2 Hs2) as Hst2.
  pose proof (setMainFieldFilters_inputFlow st t1 filters) as Hi1.
  pose proof (setMainFieldFilters_inputFlow st1 t2 filters) as Hi2.
  pose proof (timers_inputFlow timers1 (step st (call t1)) Ht1) as Hkeep.
  change (inputFlow (store st1) = inputFlow (store (step st (call t1)))) in Hkeep.
  change (selectionStats (store st1) = selectionStats (store st2)
          /\ selectionStats (store st2)
             = mg_stats (mainGroup_stage (global_stage
                 {| in_mainField := mainField (store st);
                    in_mainFieldFilters := filters;
                    in_comparisonFilters := comparisonFilters (store st) |}))).
  change (step st (call t1))
    with (step st {| time := t1; action := SetMainFieldFilters filters |}) in *.
  change (step st1 (call t2))
    with (step st1 {| time := t2; action := SetMainFieldFilters filters |}) in *.
  rewrite Hi1 in Hkeep, Hst1. rewrite Hi2 in Hst2.
  unfold inputFlow in Hkeep. injection Hkeep as Hmf _ Hcf.
  rewrite Hmf, Hcf in Hst2.
  change (run (step st {| time := t1; action := SetMainFieldFilters filters |}) timers1)
    with st1 in Hst1.
  change (run (step st1 {| time := t2; action := SetMainFieldFilters filters |}) timers2)
    with st2 in Hst2.
  by rewrite Hst1, Hst2.
Qed.

(** *** After [destroy] *)

Lemma destroy_all_closed st : all_closed (destroy st).
Proof. by intros []. Qed.

Lemma feed_closed_chain t i st c : all_closed st -> feed t i st c = st.
Proof. intros Hc. autounfold with feeds. by rewrite Hc. Qed.

Lemma notify_all_closed t st : all_closed st -> notify t st = st.
Proof.
  intros Hc. autounfold with events. generalize (inputFlow (store st)). intros i.
  induction chains as [|c cs IH]; cbn; [done|]. by rewrite feed_closed_chain.
Qed.

Lemma step_all_closed st e :
  all_closed st ->
  all_closed (step st e) /\ published (step st e) = published st.
Proof.
  intros Hc. autounfold with steps. destruct (action e) as [mf|fs|fs| |c].
  - assert (all_closed (with_store (setMainField mf) st)) as Hc' by done.
    repeat case_match; rewrite ?notify_all_closed by done; done.
  - by rewrite notify_all_closed.
  - by rewrite notify_all_closed.
  - split; [apply destroy_all_closed | done].
  - autounfold with feeds. by rewrite Hc.
Qed.

Lemma run_all_closed events : forall st,
  all_closed st -> published (run st events) = published st.
Proof.
  induction events as [|e events IH]; intros st Hc; [done|].
  destruct (step_all_closed st e Hc) as [Hc' Hp].
  change (published (run (step st e) events) = published st).
  by rewrite IH.
Qed.

(** C6: after [destroy()], whatever setter calls, timers and further
    [destroy()] calls follow, the seven published fields are never written
    again and no analyzer runs; [destroy()] clears the timers of all seven
    throttles, and a second [destroy()] changes nothing. *)
Theorem destroy_ends_publication st events :
  published (run (destroy st) events) = published st
  /\ (forall c, throttled (throttle_of c (pipe (destroy st))) = None)
  /\ all_closed (destroy st)
  /\ destroy (destroy st) = destroy st.
Proof.
  split; [|split; [|split]].
  - by rewrite run_all_closed by apply destroy_all_closed.
  - by intros [].
  - apply destroy_all_closed.
  - by destruct st as [s [] a b].
Qed.

(** *** Bursts *)

Lemma budget_le_2 last now th : budget last now th <= 2.
Proof. unfold budget. repeat case_match; lia. Qed.

Lemma budget_mono last now t th :
  now <= t -> budget last t th <= budget last now th.
Proof.
  intros Hle. unfold budget.
  repeat case_bool_decide; repeat case_match; try lia.
Qed.

Lemma throttle_next_budget last t v th :
  t <= last -> last < t + duration ->
  sent (throttle_next t v th) + budget last t (fst (throttle_next t v th))
  <= budget last t th.
Proof.
  intros Hle Hlt. autounfold with throttles bursts.
  destruct (throttled th) as [d|]; cbn;
    repeat case_bool_decide; repeat case_match; simplify_eq/=; lia.
Qed.

Lemma throttle_timer_budget last t th :
  last < t + duration ->
  sent (throttle_timer t th) + budget last t (fst (throttle_timer t th))
  <= budget last t th.
Proof.
  intros Hlt. autounfold with throttles bursts.
  destruct (throttled th) as [d|] eqn:Hd; cbn; [|rewrite ?Hd; lia].
  destruct (bool_decide (d <= t)) eqn:Hdue; cbn; [|rewrite ?Hd; lia].
  apply bool_decide_eq_true in Hdue.
  destruct (sendValue th); cbn;
    repeat case_bool_decide; repeat case_match; simplify_eq/=; lia.
Qed.

Lemma deliver_calls c v st :
  calls_analyzeContributions (deliver c v st)
  <= calls_analyzeContributions st
     + (if decide (c = ChGeneralAnalyses) then 1 else 0)
  /\ calls_analyzeComparisons (deliver c v st)
     <= calls_analyzeComparisons st
        + (if decide (owner c = SubComparisonAnalyses) then 1 else 0).
Proof.
  autounfold with delivery stages. destruct c; cbn;
    repeat case_match; simplify_eq/=; lia.
Qed.

Lemma resume_calls c r st :
  calls_analyzeContributions (resume c r st)
  <= calls_analyzeContributions st
     + (if decide (c = ChGeneralAnalyses) then sent r else 0)
  /\ calls_analyzeComparisons (resume c r st)
     <= calls_analyzeComparisons st
        + (if decide (owner c = SubComparisonAnalyses) then sent r else 0).
Proof.
  autounfold with resumes bursts. destruct (snd r) as [v|].
  - apply (deliver_calls c v (with_pipe (set_throttle c (fst r)) st)).
  - cbn. repeat case_decide; lia.
Qed.

Lemma resume_potential c r st last t :
  sent r + budget last t (fst r) <= budget last t (throttle_of c (pipe st)) ->
  contributions_potential last t (resume c r st) <= contributions_potential last t st
  /\ comparisons_potential last t (resume c r st) <= comparisons_potential last t st.
Proof.
  intros Hb. unfold contributions_potential, comparisons_potential.
  rewrite !resume_throttle.
  destruct (resume_calls c r st) as [Hc1 Hc2].
  destruct c; cbn in *; repeat case_decide; try congruence; lia.
Qed.

Lemma feed_potential t i st c last :
  t <= last -> last < t + duration ->
  contributions_potential last t (feed t i st c) <= contributions_potential last t st
  /\ comparisons_potential last t (feed t i st c) <= comparisons_potential last t st.
Proof.
  intros Hle Hlt. autounfold with feeds. destruct (closed _ _); [done|].
  apply resume_potential. by apply throttle_next_budget.
Qed.

Lemma fire_potential t st c last :
  last < t + duration ->
  contributions_potential last t (fire t c st) <= contributions_potential last t st
  /\ comparisons_potential last t (fire t c st) <= comparisons_potential last t st.
Proof.
  intros Hlt. autounfold with feeds. destruct (closed _ _); [done|].
  apply resume_potential. by apply throttle_timer_budget.
Qed.

Lemma notify_potential t st last :
  t <= last -> last < t + duration ->
  contributions_potential last t (notify t st) <= contributions_potential last t st
  /\ comparisons_potential last t (notify t st) <= comparisons_potential last t st.
Proof.
  intros Hle Hlt. autounfold with events.
  generalize (inputFlow (store st)). intros i. revert st.
  induction chains as [|c cs IH]; intros st; cbn; [done|].
  destruct (IH (feed t i st c)) as [H1 H2].
  destruct (feed_potential t i st c last Hle Hlt) as [H3 H4]. lia.
Qed.

Lemma potential_mono last now t st :
  now <= t ->
  contributions_potential last t st <= contributions_potential last now st
  /\ comparisons_potential last t st <= comparisons_potential last now st.
Proof.
  intros Hle. unfold contributions_potential, comparisons_potential.
  pose proof (fun c => budget_mono last now t (throttle_of c (pipe st)) Hle) as Hm.
  pose proof (Hm ChGeneralAnalyses). pose proof (Hm ChBaseMainGroup).
  pose proof (Hm ChBaseCompareGroup). pose proof (Hm ChBaseGlobal). lia.
Qed.

Lemma step_potential st e last :
  burst_event last e = true -> last < time e + duration ->
  contributions_potential last (time e) (step st e)
  <= contributions_potential last (time e) st
  /\ comparisons_potential last (time e) (step st e)
     <= comparisons_potential last (time e) st.
Proof.
  unfold burst_event. intros He Hlt. autounfold with steps.
  destruct (action e) as [mf|fs|fs| |c]; try done.
  - apply bool_decide_eq_true in He.
    by apply (notify_potential (time e) (with_store (setMainFieldFilters fs) st)).
  - by apply fire_potential.
Qed.

Lemma run_potential last events : forall st now,
  last < now + duration ->
  in_order now events = true ->
  forallb (burst_event last) events = true ->
  calls_analyzeContributions (run st events) <= contributions_potential last now st
  /\ calls_analyzeComparisons (run st events) <= comparisons_potential last now st.
Proof.
  induction events as [|e events IH]; intros st now Hlt Hord Hev.
  - unfold contributions_potential, comparisons_potential. cbn. lia.
  - cbn in Hord, Hev.
    apply andb_true_iff in Hord as [Hnow%bool_decide_eq_true Hord].
    apply andb_true_iff in Hev as [He Hev].
    assert (last < time e + duration) as Hlt' by lia.
    destruct (IH (step st e) (time e) Hlt' Hord Hev) as [H1 H2].
    destruct (step_potential st e last He Hlt') as [H3 H4].
    destruct (potential_mono last now (time e) st Hnow) as [H5 H6].
    change (run st (e :: events)) with (run (step st e) events). lia.
Qed.

(** C7, as the code has it: for a burst of [setMainFieldFilters] calls that
    spans at most 50 ms, mixed with timers in any order and with no other
    call, [analyzeContributions] runs at most twice, and [analyzeComparisons]
    at most six times: its callback runs at every emission of each of the
    three throttled chains that [comparisonBase$] combines, and each of the
    three emits at most twice. *)
Theorem burst_analyzer_calls st t1 filters rest :
  let burst := {| time := t1; action := SetMainFieldFilters filters |} :: rest in
  in_order t1 rest = true ->
  forallb (burst_event (t1 + 50)) rest = true ->
  calls_analyzeContributions (run st burst) <= calls_analyzeContributions st + 2
  /\ calls_analyzeComparisons (run st burst) <= calls_analyzeComparisons st + 6.
Proof.
  intros burst Hord Hev.
  destruct (run_potential (t1 + 50) burst st t1) as [H1 H2].
  - unfold duration. lia.
  - subst burst. cbn. rewrite Hord. by rewrite bool_decide_eq_true_2 by lia.
  - subst burst. cbn. rewrite Hev. unfold burst_event. cbn.
    by rewrite bool_decide_eq_true_2 by lia.
  - unfold contributions_potential, comparisons_potential in *.
    pose proof (fun c => budget_le_2 (t1 + 50) t1 (throttle_of c (pipe st))) as Hb.
    pose proof (Hb ChGeneralAnalyses). pose proof (Hb ChBaseMainGroup).
    pose proof (Hb ChBaseCompareGroup). pose proof (Hb ChBaseGlobal). lia.
Qed.

(** *** Waves complete *)

Lemma resume_timing c r st T :
  idle_is_empty st -> due_by T st ->
  (throttled (fst r) = None -> sendValue (fst r) = None) ->
  (forall d, throttled (fst r) = Some d -> d <= T) ->
  idle_is_empty (resume c r st) /\ due_by T (resume c r st).
Proof.
  intros Hidle Hdue Hr1 Hr2.
  split; [intros c' | intros c' d]; rewrite resume_throttle; case_decide; eauto.
Qed.

Lemma feed_timing t i st c T :
  t + duration <= T ->
  idle_is_empty st -> due_by T st ->
  idle_is_empty (feed t i st c) /\ due_by T (feed t i st c).
Proof.
  intros Ht Hidle Hdue. autounfold with feeds. destruct (closed _ _); [done|].
  apply resume_timing; try done; unfold throttle_next;
    destruct (throttled (throttle_of c (pipe st))) as [d0|] eqn:Hd; cbn; try done.
  - intros d [= <-]. by eapply Hdue.
  - intros d [= <-]. done.
Qed.

Lemma fire_timing t c st T :
  t + duration <= T ->
  idle_is_empty st -> due_by T st ->
  idle_is_empty (fire t c st) /\ due_by T (fire t c st).
Proof.
  intros Ht Hidle Hdue. autounfold with feeds. destruct (closed _ _); [done|].
  pose proof (Hidle c) as Hc. pose proof (Hdue c) as Hdc.
  apply resume_timing; try done; unfold throttle_timer.
  - destruct (throttled (throttle_of c (pipe st))) as [d0|] eqn:Hd;
      [|cbn; intros _; by apply Hc].
    case_bool_decide; cbn; [|by rewrite Hd].
    by destruct (sendValue (throttle_of c (pipe st))).
  - destruct (throttled (throttle_of c (pipe st))) as [d0|] eqn:Hd;
      [|cbn; by rewrite Hd].
    case_bool_decide; cbn; [|rewrite Hd; intros d [= <-]; by apply Hdc].
    destruct (sendValue (throttle_of c (pipe st))); cbn; [|done].
    by intros d [= <-].
Qed.

Lemma notify_timing t st T :
  t + duration <= T ->
  idle_is_empty st -> due_by T st ->
  idle_is_empty (notify t st) /\ due_by T (notify t st).
Proof.
  intros Ht. autounfold with events. generalize (inputFlow (store st)). intros i.
  revert st. induction chains as [|c cs IH]; intros st Hidle Hdue; cbn; [done|].
  destruct (feed_timing t i st c T Ht Hidle Hdue) as [Hidle' Hdue']. by apply IH.
Qed.

Lemma step_timing st e T :
  not_destroy e -> time e + duration <= T ->
  idle_is_empty st -> due_by T st ->
  idle_is_empty (step st e) /\ due_by T (step st e).
Proof.
  intros Hnd Ht Hidle Hdue. unfold not_destroy in Hnd. autounfold with steps.
  destruct (action e) as [mf|fs|fs| |c]; try done.
  - repeat case_match; try done; by apply notify_timing.
  - by apply notify_timing.
  - by apply notify_timing.
  - by apply fire_timing.
Qed.

Lemma new_store_timing t0 :
  idle_is_empty (new_store t0) /\ due_by (t0 + duration) (new_store t0).
Proof.
  split; [intros c | intros c d]; destruct c; cbn; try done; by intros [= <-].
Qed.

Lemma run_timing T events : forall st,
  Forall not_destroy events ->
  Forall (fun e => time e + duration <= T) events ->
  idle_is_empty st -> due_by T st ->
  idle_is_empty (run st events) /\ due_by T (run st events).
Proof.
  induction events as [|e events IH]; intros st Hnd Ht Hidle Hdue; [done|].
  apply Forall_cons in Hnd as [He Hnd]. apply Forall_cons in Ht as [Hte Ht].
  destruct (step_timing st e T He Hte Hidle Hdue) as [Hidle' Hdue'].
  change (run st (e :: events)) with (run (step st e) events). by apply IH.
Qed.

Lemma fire_keeps_settled t c c' st :
  settled_chain c' st -> settled_chain c' (fire t c st).
Proof.
  unfold settled_chain. intros Hs. autounfold with feeds.
  destruct (closed _ _); [done|]. rewrite resume_throttle.
  case_decide as Hc; [subst c'|done]. unfold throttle_timer.
  destruct (throttled (throttle_of c (pipe st))); cbn; [|done].
  case_bool_decide; cbn; [|done]. by rewrite Hs.
Qed.

Lemma fire_settles t c st :
  closed (owner c) (pipe st) = false ->
  (throttled (throttle_of c (pipe st)) = None ->
   sendValue (throttle_of c (pipe st)) = None) ->
  (forall d, throttled (throttle_of c (pipe st)) = Some d -> d <= t) ->
  settled_chain c (fire t c st).
Proof.
  intros Hopen Hidle Hdue. unfold settled_chain. autounfold with feeds.
  rewrite Hopen, resume_throttle, decide_True by done. unfold throttle_timer.
  destruct (throttled (throttle_of c (pipe st))) as [d|]; cbn; [|by apply Hidle].
  rewrite bool_decide_eq_true_2 by (by apply Hdue).
  by destruct (sendValue (throttle_of c (pipe st))).
Qed.

Lemma fire_all_settles t cs : forall st,
  all_open st ->
  (forall c, c ∈ cs ->
     settled_chain c st
     \/ ((throttled (throttle_of c (pipe st)) = None ->
          sendValue (throttle_of c (pipe st)) = None)
         /\ forall d, throttled (throttle_of c (pipe st)) = Some d -> d <= t)) ->
  forall c, c ∈ cs \/ settled_chain c st ->
            settled_chain c (foldl (fun st c => fire t c st) st cs).
Proof.
  induction cs as [|c0 cs IH]; intros st Hopen Hcs c Hc; cbn.
  - destruct Hc as [Hin|Hs]; [by apply elem_of_nil in Hin | done].
  - assert (settled_chain c0 (fire t c0 st)) as Hs0.
    { destruct (Hcs c0) as [Hs|[Hidle Hdue]]; [by left | |].
      - by apply fire_keeps_settled.
      - by apply fire_settles. }
    apply IH.
    + intros sub. by rewrite fire_closed.
    + intros c1 Hc1. destruct (decide (c0 = c1)) as [<-|Hne]; [by left|].
      destruct (Hcs c1) as [Hs|[Hidle Hdue]]; [by right | |].
      * left. by apply fire_keeps_settled.
      * right. by rewrite fire_throttle_other.
    + destruct (decide (c0 = c)) as [<-|Hne]; [by right|].
      destruct Hc as [Hin|Hs].
      * left. apply elem_of_cons in Hin as [?|?]; [congruence | done].
      * right. by apply fire_keeps_settled.
Qed.

Lemma run_timers t st :
  run st (timers t) = foldl (fun st c => fire t c st) st chains.
Proof.
  unfold timers. revert st. induction chains as [|c cs IH]; intros st; [done|].
  cbn. by rewrite <- IH.
Qed.

(** When all timers fire, no earlier than their time, every wave completes. *)
Lemma timers_settle t st :
  all_open st -> idle_is_empty st -> due_by t st -> settled (run st (timers t)).
Proof.
  intros Hopen Hidle Hdue c. rewrite run_timers.
  apply fire_all_settles; [done | | left; apply chains_complete].
  intros c' _. right. split; [apply Hidle | apply Hdue].
Qed.

(** From the constructor on, when all timers fire [duration] after the last
    event or later, every wave has completed. *)
Lemma waves_complete t0 events T :
  Forall not_destroy events ->
  Forall (fun e => time e + duration <= T) events ->
  t0 + duration <= T ->
  settled (run (new_store t0) (events ++ timers T)).
Proof.
  intros Hnd Ht Ht0.
  replace (run (new_store t0) (events ++ timers T))
    with (run (run (new_store t0) events) (timers T)) by (symmetry; apply foldl_app).
  destruct (new_store_timing t0) as [Hidle Hdue].
  destruct (run_timing T events (new_store t0) Hnd Ht Hidle) as [Hidle' Hdue'].
  { intros c d Hd. specialize (Hdue c d Hd). lia. }
  apply timers_settle; [|done|done].
  by apply (run_invariant events (new_store t0) Hnd (new_store_invariant t0)).
Qed.

End PipelineProperties.

(** ** The pipeline on the example dataset *)

Module Examples.
Import Demo.

Lemma applyDividers_sublist rows filters :
  fst (applyDividers rows filters) `sublist_of` rows.
Proof.
  unfold applyDividers; cbn. induction rows as [|row rows IH]; cbn; [constructor|].
  destruct (forallb (passes row) filters); by constructor.
Qed.

Ltac settle := intros []; vm_compute; reflexivity.
Ltac no_destroy := vm_compute; repeat constructor.
Ltac run_it := vm_compute; reflexivity.

Lemma stats_null_without_inputs_witness :
  let st := play plain cleared in
  Forall not_destroy cleared
  /\ settled st
  /\ mainField (store st) = None
  /\ globalStats (store st) = None
  /\ selectionStats (store st) = None
  /\ diffStats (store st) = None.
Proof.
  assert (Forall not_destroy cleared) as Hnd by no_destroy.
  assert (settled (play plain cleared)) as Hs by settle.
  assert (mainField (store (play plain cleared)) = None) as Hm by run_it.
  pose proof (@stats_null_without_inputs plain data fields 0 cleared Hnd Hs) as Hall.
  exact (conj Hnd (conj Hs (conj Hm (proj1 Hall Hm)))).
Defined.

Lemma subsets_of_original_witness :
  let st := play plain compare_high in
  Forall not_destroy compare_high
  /\ settled st
  /\ (selection (store st) = fst (applyDividers data (mainFieldFilters (store st)))
      /\ diffGroup (store st)
         = match mainField (store st), globalStats (store st),
                 comparisonFilters (store st) with
           | Some _, Some _, _ :: _ =>
               fst (applyDividers data (comparisonFilters (store st)))
           | _, _, _ => []
           end)
  /\ selection (store st) = [row 10 1; row 20 2]
  /\ diffGroup (store st) = [row 30 3; row 40 4]
  /\ selection (store st) `sublist_of` data
  /\ diffGroup (store st) `sublist_of` data.
Proof.
  assert (Forall not_destroy compare_high) as Hnd by no_destroy.
  assert (settled (play plain compare_high)) as Hs by settle.
  pose proof (@subsets_of_original plain data fields 0 compare_high
                applyDividers_sublist) as Hall.
  assert (selection (store (play plain compare_high)) = [row 10 1; row 20 2])
    as Hsel by run_it.
  assert (diffGroup (store (play plain compare_high)) = [row 30 3; row 40 4])
    as Hdiff by run_it.
  exact (conj Hnd (conj Hs (conj (proj1 Hall Hnd Hs)
           (conj Hsel (conj Hdiff (proj2 (proj2 Hall))))))).
Defined.

Lemma generalAnalyses_published_witness :
  let st := play plain select_low in
  Forall not_destroy select_low
  /\ settled st
  /\ generalAnalyses (store st)
     = match mainField (store st), globalStats (store st) with
       | Some mf, Some gs =>
           analyzeContributions (selection (store st)) fields mf
             (stats_at (stats gs) (aggregator mf))
       | _, _ => []
       end
  /\ generalAnalyses (store st)
     = analyzeContributions [row 10 1; row 20 2] fields mean_of_f (num 25).
Proof.
  assert (Forall not_destroy select_low) as Hnd by no_destroy.
  assert (settled (play plain select_low)) as Hs by settle.
  assert (generalAnalyses (store (play plain select_low))
          = analyzeContributions [row 10 1; row 20 2] fields mean_of_f (num 25))
    as Hga by run_it.
  exact (conj Hnd (conj Hs (conj
           (proj2 (@generalAnalyses_published plain data fields 0 select_low) Hnd Hs)
           Hga))).
Defined.

Lemma compareGroup_target_resolved_witness :
  let input := {| in_mainField := Some mean_of_f;
                  in_mainFieldFilters := [];
                  in_comparisonFilters := [range "f" 25 40] |} in
  exists t,
    resolveCompareTarget id mean_of_f fields = Some t
    /\ @compareGroup_stage plain data fields (@global_stage plain data fields input)
       = Some {| cg_data := fst (applyDividers data [range "f" 25 40]);
                 cg_stats :=
                   Some {| definition := mean_of_f; fs_field := field t;
                           stats := statDivision data
                                      (fst (applyDividers data [range "f" 25 40]))
                                      fields "f" |} |}.
Proof.
  refine (@compareGroup_target_resolved plain data fields _ mean_of_f
            {| definition := mean_of_f;
               fs_field := {| fid := "f"; name := "F"; semanticType := quantitative |};
               stats := statDivision data data fields "f" |} _ _ _).
  - reflexivity.
  - run_it.
  - discriminate.
Defined.

Lemma setMainFieldFilters_twice_witness :
  let events :=
    timers 200 ++ [at_ 1000 (SetMainField (Some mean_of_f))] ++ timers 1200 in
  let st := play plain events in
  let call t := {| time := t; action := SetMainFieldFilters [range "f" 0 25] |} in
  let st1 :=
    @run plain data fields (@step plain data fields st (call 2000)) (timers 2200) in
  let st2 :=
    @run plain data fields (@step plain data fields st1 (call 3000)) (timers 3200) in
  settled_chain ChMainGroup st1
  /\ settled_chain ChMainGroup st2
  /\ selectionStats (store st1) = selectionStats (store st2)
  /\ selectionStats (store st2)
     = Some {| definition := mean_of_f;
               fs_field := {| fid := "f"; name := "F"; semanticType := quantitative |};
               stats := {| stats_mean := num 15; stats_sum := num 30;
                           stats_count := num 2 |} |}.
Proof.
  intros events st call st1 st2.
  assert (Forall not_destroy events) as Hnd by no_destroy.
  assert (Forall is_timer (timers 2200)) as Ht1 by no_destroy.
  assert (Forall is_timer (timers 3200)) as Ht2 by no_destroy.
  assert (settled_chain ChMainGroup st1) as Hs1 by run_it.
  assert (settled_chain ChMainGroup st2) as Hs2 by run_it.
  pose proof (@setMainFieldFilters_twice plain data fields 0 events
                [range "f" 0 25] 2000 3000 (timers 2200) (timers 3200)
                Hnd Ht1 Ht2 Hs1 Hs2) as Hsame.
  refine (conj Hs1 (conj Hs2 (conj (proj1 Hsame) _))).
  run_it.
Defined.

Lemma burst_analyzer_calls_witness :
  let st := play plain compare_high in
  let first := {| time := 4000; action := SetMainFieldFilters [range "f" 0 16] |} in
  in_order 4000 (tl burst) = true
  /\ forallb (burst_event (4000 + 50)) (tl burst) = true
  /\ calls_analyzeContributions (@run plain data fields st (first :: tl burst))
     <= calls_analyzeContributions st + 2
  /\ calls_analyzeComparisons (@run plain data fields st (first :: tl burst))
     <= calls_analyzeComparisons st + 6.
Proof.
  assert (in_order 4000 (tl burst) = true) as Hord by run_it.
  assert (forallb (burst_event (4000 + 50)) (tl burst) = true) as Hev by run_it.
  exact (conj Hord (conj Hev
           (@burst_analyzer_calls plain data fields (play plain compare_high) 4000
              [range "f" 0 16] (tl burst) Hord Hev))).
Defined.

(** C7 as stated fails: with a main field and a comparison group chosen, a
    burst of ten [setMainFieldFilters] calls within 45 ms, starting when the
    throttles are idle, runs [analyzeContributions] twice and
    [analyzeComparisons] six times. *)
Lemma burst_runs_analyzeComparisons_six_times :
  let st := play plain compare_high in
  let st' := @run plain data fields st burst in
  length burst_calls = 10
  /\ in_order 4000 burst = true
  /\ forallb (burst_event (4000 + 50)) burst = true
  /\ settled st /\ settled st'
  /\ calls_analyzeContributions st' = calls_analyzeContributions st + 2
  /\ calls_analyzeComparisons st' = calls_analyzeComparisons st + 6
  /\ ~ calls_analyzeComparisons st' <= calls_analyzeComparisons st + 2.
Proof.
  assert (settled (play plain compare_high)) as Hs by settle.
  assert (settled (@run plain data fields (play plain compare_high) burst)) as Hs'
    by settle.
  assert (calls_analyzeComparisons
            (@run plain data fields (play plain compare_high) burst)
          = calls_analyzeComparisons (play plain compare_high) + 6) as H6 by run_it.
  refine (conj _ (conj _ (conj _ (conj Hs (conj Hs' (conj _ (conj H6 _))))))).
  1-4: run_it.
  rewrite H6. lia.
Qed.

(** C1 on a resolver whose target is another column: the main field [f]
    resolves to the field [g].  [globalStats] is taken over [g], while
    [selectionStats] and [diffStats], annotated with [g], are taken over
    [f]. *)
Lemma stats_over_main_field_column :
  let st := play retargeted compare_high in
  let g := {| fid := "g"; name := "G"; semanticType := quantitative |} in
  settled st
  /\ resolveCompareTarget retarget mean_of_f fields = Some {| field := g |}
  /\ globalStats (store st)
     = Some {| definition := mean_of_f; fs_field := g;
               stats := statDivision data data fields "g" |}
  /\ selectionStats (store st)
     = Some {| definition := mean_of_f; fs_field := g;
               stats := statDivision data (selection (store st)) fields "f" |}
  /\ diffStats (store st)
     = Some {| definition := mean_of_f; fs_field := g;
               stats := statDivision data (diffGroup (store st)) fields "f" |}
  /\ statDivision data (selection (store st)) fields "f"
     <> statDivision data (selection (store st)) fields "g"
  /\ statDivision data (diffGroup (store st)) fields "f"
     <> statDivision data (diffGroup (store st)) fields "g".
Proof.
  assert (settled (play retargeted compare_high)) as Hs by settle.
  refine (conj Hs (conj _ (conj _ (conj _ (conj _ (conj _ _)))))).
  1-4: run_it.
  all: vm_compute; discriminate.
Qed.

(** The examples of section 8 of the specification: the global mean is 25
    and nothing is selected before a filter is set; with the filter on [f]
    the mean of the selection is 15. *)
Lemma spec_examples :
  let st0 :=
    play plain (timers 200 ++ [at_ 1000 (SetMainField (Some mean_of_f))]
                ++ timers 1200) in
  let st1 := play plain select_low in
  (stats_mean ∘ stats <$> globalStats (store st0)) = Some (num 25)
  /\ selectionStats (store st0) = None
  /\ selection (store st1) = [row 10 1; row 20 2]
  /\ (stats_mean ∘ stats <$> selectionStats (store st1)) = Some (num 15).
Proof. repeat split; run_it. Qed.

(** Between a setter call and the trailing emission the published values are
    those of the previous inputs: here [mainField] is already [null] while the
    three stats are still there. *)
Lemma stale_between_waves :
  let st := play plain clearing in
  mainField (store st) = None
  /\ is_Some (globalStats (store st))
  /\ is_Some (selectionStats (store st))
  /\ is_Some (diffStats (store st))
  /\ sendValue (throttle_of ChGlobal (pipe st)) = Some (inputFlow (store st)).
Proof.
  split; [run_it|].
  split; [vm_compute; eexists; reflexivity|].
  split; [vm_compute; eexists; reflexivity|].
  split; [vm_compute; eexists; reflexivity | run_it].
Qed.

(** A filter on a field that is not in [fields] is left out of the export. *)
Lemma export_drops_unknown_field :
  exportFilters [range "f" 0 25; range "h" 0 1; range "g" 1 2] fields
  = [ {| ef_filter := range "f" 0 25; ef_name := "F";
         ef_semanticType := quantitative |};
      {| ef_filter := range "g" 1 2; ef_name := "G";
         ef_semanticType := quantitative |} ].
Proof. reflexivity. Qed.

End Examples.

(** ** More on the pipeline *)

Section MorePipelineProperties.
Context `{Imports}.
Variable data : list IRow.
Variable fields : list IFieldMeta.

Local Abbreviation global_stage := (global_stage data fields).
Local Abbreviation mainGroup_stage := (mainGroup_stage data fields).
Local Abbreviation compareGroup_stage := (compareGroup_stage data fields).
Local Abbreviation generalAnalyses_stage := (generalAnalyses_stage fields).
Local Abbreviation comparisonAnalyses_stage := (comparisonAnalyses_stage fields).
Local Abbreviation deliver := (deliver data fields).
Local Abbreviation resume := (resume data fields).
Local Abbreviation feed := (feed data fields).
Local Abbreviation fire := (fire data fields).
Local Abbreviation notify := (notify data fields).
Local Abbreviation step := (step data fields).
Local Abbreviation run := (run data fields).
Local Abbreviation new_store := (new_store data fields).
Local Abbreviation up_to_date := (up_to_date data fields).
Local Abbreviation invariant := (invariant data fields).
Local Abbreviation base_published := (base_published fields).
Local Abbreviation export := (export fields).

(** *** The comparison analyses *)

Lemma deliver_base_published c v st :
  base_published st -> base_published (deliver c v st).
Proof.
  autounfold with observations delivery. intros Hst.
  destruct c; cbn; repeat case_match; simplify_eq/=; try done;
    repeat match goal with H : _ = _ |- _ => rewrite H in * end; try done.
Qed.

Lemma resume_base_published c r st :
  base_published st -> base_published (resume c r st).
Proof.
  intros Hst. autounfold with resumes. destruct (snd r).
  - apply deliver_base_published. by destruct c.
  - by destruct c.
Qed.

Lemma notify_base_published t st :
  base_published st -> base_published (notify t st).
Proof.
  autounfold with events. generalize (inputFlow (store st)). intros i.
  revert st. induction chains as [|c cs IH]; intros st Hst; cbn; [done|].
  apply IH. autounfold with feeds. destruct (closed _ _); [done|].
  by apply resume_base_published.
Qed.

Lemma step_base_published st e :
  base_published st -> base_published (step st e).
Proof.
  intros Hst. autounfold with steps. destruct (action e) as [mf|fs|fs| |c].
  - repeat case_match; try done; by apply notify_base_published.
  - by apply notify_base_published.
  - by apply notify_base_published.
  - done.
  - autounfold with feeds. destruct (closed _ _); [done|].
    by apply resume_base_published.
Qed.

Lemma run_base_published events : forall st,
  base_published st -> base_published (run st events).
Proof.
  induction events as [|e events IH]; intros st Hst; [done|].
  cbn. apply IH. by apply step_base_published.
Qed.

Lemma new_store_base_published t0 : base_published (new_store t0).
Proof. apply notify_base_published. done. Qed.

(** X1: once the waves have completed, the published [comparisonAnalyses] is
    [analyzeComparisons] of the published selection and comparison group when
    the main field is set and [comparisonFilters] is not empty, and is empty
    otherwise. *)
Theorem comparisonAnalyses_published t0 events :
  Forall not_destroy events ->
  let st := run (new_store t0) events in
  settled st ->
  comparisonAnalyses (store st)
  = match mainField (store st), comparisonFilters (store st) with
    | Some mf, _ :: _ =>
        analyzeComparisons (selection (store st)) (diffGroup (store st)) fields mf
    | _, _ => []
    end.
Proof.
  intros Hnd st Hs.
  assert (invariant st) as Hinv
    by (apply run_invariant, new_store_invariant; done).
  assert (base_published st) as Hbase
    by apply run_base_published, new_store_base_published.
  pose proof (settled_up_to_date data fields ChMainGroup st Hinv (Hs _)) as [Hsel _].
  pose proof (settled_up_to_date data fields ChCompareGroup st Hinv (Hs _)) as Hc.
  pose proof (settled_up_to_date data fields ChBaseMainGroup st Hinv (Hs _)) as Hbm.
  pose proof (settled_up_to_date data fields ChBaseCompareGroup st Hinv (Hs _)) as Hbc.
  pose proof (settled_up_to_date data fields ChBaseGlobal st Hinv (Hs _)) as Hbg.
  autounfold with inv observations in *.
  rewrite Hbm, Hbc, Hc, Hbg in Hbase. rewrite Hbase, Hsel.
  autounfold with stages; cbn.
  destruct (mainField (store st)) as [mf|]; [|done].
  by destruct (comparisonFilters (store st)).
Qed.

(** *** The published fields as functions of the inputs *)

Lemma settled_fields st :
  invariant st -> base_published st -> settled st ->
  let global := global_stage (inputFlow (store st)) in
  let mainGroup := mainGroup_stage global in
  let compareGroup :=
    {| cg_data := diffGroup (store st); cg_stats := diffStats (store st) |} in
  globalStats (store st) = g_globalStats global
  /\ selection (store st) = mg_data mainGroup
  /\ selectionStats (store st) = mg_stats mainGroup
  /\ generalAnalyses (store st) = fst (generalAnalyses_stage mainGroup)
  /\ compareGroup_stage global = Some compareGroup
  /\ comparisonAnalyses (store st)
     = fst (comparisonAnalyses_stage mainGroup compareGroup global).
Proof.
  intros Hinv Hbase Hs.
  pose proof (settled_up_to_date data fields ChGlobal st Hinv (Hs _)) as Hg.
  pose proof (settled_up_to_date data fields ChMainGroup st Hinv (Hs _)) as [Hsel Hss].
  pose proof (settled_up_to_date data fields ChGeneralAnalyses st Hinv (Hs _)) as Hga.
  pose proof (settled_up_to_date data fields ChCompareGroup st Hinv (Hs _)) as Hc.
  pose proof (settled_up_to_date data fields ChBaseMainGroup st Hinv (Hs _)) as Hbm.
  pose proof (settled_up_to_date data fields ChBaseCompareGroup st Hinv (Hs _)) as Hbc.
  pose proof (settled_up_to_date data fields ChBaseGlobal st Hinv (Hs _)) as Hbg.
  autounfold with inv observations in *.
  rewrite Hbm, Hbc, Hc, Hbg in Hbase. done.
Qed.

Lemma reached_settled t0 events :
  Forall not_destroy events ->
  invariant (run (new_store t0) events) /\ base_published (run (new_store t0) events).
Proof.
  intros Hnd. split.
  - by apply run_invariant, new_store_invariant.
  - apply run_base_published, new_store_base_published.
Qed.

(** X2: the published fields keep nothing of the past: two stores on the
    same dataset and fields, whatever calls and timers each went through, hold
    the same seven published fields once their waves have completed and their
    three inputs are the same. *)
Theorem same_inputs_same_outputs t0 events t0' events' :
  Forall not_destroy events ->
  Forall not_destroy events' ->
  let st := run (new_store t0) events in
  let st' := run (new_store t0') events' in
  settled st -> settled st' ->
  inputFlow (store st) = inputFlow (store st') ->
  outputs (store st) = outputs (store st').
Proof.
  intros Hnd Hnd' st st' Hs Hs' Hin.
  destruct (reached_settled t0 events Hnd) as [Hinv Hbase].
  destruct (reached_settled t0' events' Hnd') as [Hinv' Hbase'].
  destruct (settled_fields st Hinv Hbase Hs) as (Hg & Hsel & Hss & Hga & Hc & Hca).
  destruct (settled_fields st' Hinv' Hbase' Hs') as (Hg' & Hsel' & Hss' & Hga' & Hc' & Hca').
  fold st' in Hg', Hsel', Hss', Hga', Hc', Hca'. fold st in Hin.
  rewrite <- Hin in Hg', Hsel', Hss', Hga', Hc', Hca'.
  rewrite Hc in Hc'. injection Hc' as Hdg Hds.
  unfold outputs. rewrite Hca, Hca', Hg, Hg', Hsel, Hsel', Hss, Hss', Hga, Hga'.
  rewrite Hdg, Hds. done.
Qed.


(** *** When the stats are there *)

Lemma global_stats_iff input :
  is_Some (g_globalStats (global_stage input))
  <-> exists mf, in_mainField input = Some mf
                 /\ is_Some (resolveCompareTarget mf fields).
Proof.
  autounfold with stages; cbn.
  destruct (in_mainField input) as [mf|].
  - destruct (resolveCompareTarget mf fields) as [t|] eqn:Ht.
    + split; [intros _; exists mf; by rewrite Ht | by eauto].
    + split; [by intros [? ?] | intros (mf0 & [= <-] & Hx)].
      rewrite Ht in Hx. by destruct Hx.
  - split; [by intros [? ?] | by intros (? & ? & _)].
Qed.

Lemma mainGroup_stats_iff input :
  is_Some (mg_stats (mainGroup_stage (global_stage input)))
  <-> is_Some (g_globalStats (global_stage input))
      /\ in_mainFieldFilters input <> [].
Proof.
  autounfold with stages; cbn.
  destruct (in_mainField input) as [mf|]; [|split; [by intros [? ?] | by intros [[? ?] _]]].
  destruct (resolveCompareTarget mf fields) as [t|];
    [|split; [by intros [? ?] | by intros [[? ?] _]]].
  destruct (in_mainFieldFilters input) as [|f fs]; cbn.
  - split; [by intros [? ?] | by intros [_ ?]].
  - split; [intros _; split; [by eauto | done] | by eauto].
Qed.

Lemma compareGroup_stats_iff input cg :
  compareGroup_stage (global_stage input) = Some cg ->
  (is_Some (cg_stats cg)
   <-> is_Some (g_globalStats (global_stage input))
       /\ in_comparisonFilters input <> [])
  /\ forall s, cg_stats cg = Some s ->
       exists mf t, in_mainField input = Some mf
                    /\ resolveCompareTarget mf fields = Some t
                    /\ definition s = mf /\ fs_field s = field t.
Proof.
  autounfold with stages; cbn.
  destruct (in_mainField input) as [mf|].
  - destruct (resolveCompareTarget mf fields) as [t|] eqn:Ht.
    + destruct (in_comparisonFilters input) as [|f fs]; cbn; intros [= <-]; cbn.
      * split; [split; [by intros [? ?] | by intros [_ ?]] | done].
      * split; [split; [intros _; split; [by eauto | done] | by eauto]|].
        intros s [= <-]. by exists mf, t.
    + intros [= <-]; cbn.
      split; [split; [by intros [? ?] | by intros [[? ?] _]] | done].
  - intros [= <-]; cbn.
    split; [split; [by intros [? ?] | by intros [[? ?] _]] | done].
Qed.

(** X4: once the waves have completed, [globalStats] is non-null exactly
    when the main field is set and resolves, [selectionStats] exactly when
    moreover [mainFieldFilters] is not empty, and [diffStats] exactly when
    moreover [comparisonFilters] is not empty; each of the three that is
    non-null carries the current main field as its definition and the
    resolved target as its field. *)
Theorem stats_published_when t0 events :
  Forall not_destroy events ->
  let st := run (new_store t0) events in
  settled st ->
  (is_Some (globalStats (store st))
   <-> exists mf, mainField (store st) = Some mf
                  /\ is_Some (resolveCompareTarget mf fields))
  /\ (is_Some (selectionStats (store st))
      <-> is_Some (globalStats (store st)) /\ mainFieldFilters (store st) <> [])
  /\ (is_Some (diffStats (store st))
      <-> is_Some (globalStats (store st)) /\ comparisonFilters (store st) <> [])
  /\ forall s,
       globalStats (store st) = Some s \/ selectionStats (store st) = Some s
       \/ diffStats (store st) = Some s ->
       exists mf t,
         mainField (store st) = Some mf
         /\ resolveCompareTarget mf fields = Some t
         /\ definition s = mf /\ fs_field s = field t.
Proof.
  intros Hnd st Hs.
  destruct (reached_settled t0 events Hnd) as [Hinv Hbase].
  destruct (settled_fields st Hinv Hbase Hs) as (Hg & _ & Hss & _ & Hc & _).
  fold st in Hg, Hss, Hc.
  destruct (compareGroup_stats_iff _ _ Hc) as [Hciff Hcann]. cbn in Hciff, Hcann.
  rewrite Hg, Hss.
  split; [apply (global_stats_iff (inputFlow (store st)))|].
  split; [apply (mainGroup_stats_iff (inputFlow (store st)))|].
  split; [exact Hciff|].
  intros s [Hx|[Hx|Hx]].
  - apply global_stats_resolved in Hx as (mf & t & ? & ? & _ & ->). by exists mf, t.
  - apply mainGroup_stats_column in Hx as (mf & t & ? & ? & ->). by exists mf, t.
  - by apply Hcann.
Qed.

(** X5: a main field that does not resolve, once the waves have completed:
    the three stats are [null], [generalAnalyses] and [diffGroup] are empty,
    and yet, when [comparisonFilters] is not empty, [analyzeComparisons] has
    been run, on the selection and an empty comparison group. *)
Theorem unresolved_main_field t0 events mf :
  Forall not_destroy events ->
  let st := run (new_store t0) events in
  settled st ->
  mainField (store st) = Some mf ->
  resolveCompareTarget mf fields = None ->
  globalStats (store st) = None
  /\ selectionStats (store st) = None
  /\ diffStats (store st) = None
  /\ generalAnalyses (store st) = []
  /\ diffGroup (store st) = []
  /\ comparisonAnalyses (store st)
     = match comparisonFilters (store st) with
       | [] => []
       | _ :: _ => analyzeComparisons (selection (store st)) [] fields mf
       end.
Proof.
  intros Hnd st Hs Hmf Hno.
  destruct (reached_settled t0 events Hnd) as [Hinv Hbase].
  destruct (settled_fields st Hinv Hbase Hs) as (Hg & Hsel & Hss & Hga & Hc & Hca).
  fold st in Hg, Hsel, Hss, Hga, Hc, Hca.
  assert (diffGroup (store st) = [] /\ diffStats (store st) = None) as [Hdg Hds].
  { autounfold with stages in Hc. cbn in Hc. rewrite Hmf, Hno in Hc.
    cbn in Hc. by injection Hc as <- <-. }
  rewrite Hg, Hss, Hga, Hca, Hsel, Hdg, Hds.
  autounfold with stages. cbn. rewrite Hmf, Hno. cbn.
  repeat split. by destruct (comparisonFilters (store st)).
Qed.

(** *** The constructor *)

(** X6: the constructor runs its first wave at once: it publishes no stats,
    no analyses and no comparison group, the selection [applyDividers] cuts
    from the dataset with no filter, calls no analyzer, and leaves the timers
    of all seven throttles running for [duration]. *)
Theorem constructor_state t0 :
  let st := new_store t0 in
  outputs (store st) = (None, None, None, [], [], fst (applyDividers data []), [])
  /\ inputFlow (store st)
     = {| in_mainField := None; in_mainFieldFilters := [];
          in_comparisonFilters := [] |}
  /\ calls_analyzeContributions st = 0
  /\ calls_analyzeComparisons st = 0
  /\ (forall c, throttle_of c (pipe st)
                = {| throttled := Some (t0 + duration); sendValue := None |})
  /\ (forall sub, closed sub (pipe st) = false).
Proof. repeat split; try done; by intros []. Qed.

(** *** The leading and the trailing edge *)

Lemma times_bounded events t0 :
  exists T, t0 + duration <= T /\ Forall (fun e => time e + duration <= T) events.
Proof.
  induction events as [|e events (T & Ht0 & Hev)].
  - exists (t0 + duration). split; [lia | constructor].
  - exists (T + (time e + duration)). split; [lia|]. constructor; [lia|].
    eapply Forall_impl; [exact Hev|]. cbn. intros; lia.
Qed.

Lemma reached_idle_is_empty t0 events :
  Forall not_destroy events -> idle_is_empty (run (new_store t0) events).
Proof.
  intros Hnd. destruct (times_bounded events t0) as (T & Ht0 & Hev).
  destruct (new_store_timing data fields t0) as [Hidle Hdue].
  apply (run_timing data fields T events (new_store t0) Hnd Hev Hidle).
  intros c d Hd. specialize (Hdue c d Hd). lia.
Qed.

Lemma feed_idle t i st c :
  closed (owner c) (pipe st) = false ->
  throttled (throttle_of c (pipe st)) = None ->
  throttle_of c (pipe (feed t i st c))
  = {| throttled := Some (t + duration); sendValue := None |}.
Proof.
  intros Hopen Hidle. autounfold with feeds. rewrite Hopen.
  rewrite resume_throttle, decide_True by done. unfold throttle_next.
  by rewrite Hidle.
Qed.

Lemma feed_all_idle t i cs : forall st,
  all_open st -> NoDup cs ->
  (forall c, c ∈ cs -> throttled (throttle_of c (pipe st)) = None) ->
  forall c, c ∈ cs ->
    throttle_of c (pipe (foldl (feed t i) st cs))
    = {| throttled := Some (t + duration); sendValue := None |}.
Proof.
  induction cs as [|c0 cs IH]; intros st Hopen Hnd Hidle c Hc.
  - by apply elem_of_nil in Hc.
  - apply NoDup_cons in Hnd as [Hc0 Hnd]. cbn.
    assert (all_open (feed t i st c0)) as Hopen'
      by (intros sub; by rewrite feed_closed).
    destruct (decide (c ∈ cs)) as [Hin|Hout].
    + apply IH; try done. intros c1 Hc1.
      rewrite feed_throttle_other by (intros ->; done).
      apply Hidle. by right.
    + apply elem_of_cons in Hc as [->|?]; [|done].
      assert (forall cs' st', c0 ∉ cs' ->
                throttle_of c0 (pipe (foldl (feed t i) st' cs'))
                = throttle_of c0 (pipe st')) as Hkeep.
      { induction cs' as [|c1 cs' IH']; intros st' Hnotin; [done|]. cbn.
        rewrite IH' by (intros ?; apply Hnotin; by right).
        apply feed_throttle_other. intros ->. apply Hnotin. by left. }
      rewrite Hkeep by done. apply feed_idle; [apply Hopen|].
      apply Hidle. by left.
Qed.

Lemma chains_NoDup : NoDup chains.
Proof. by apply (bool_decide_unpack _). Qed.

(** X7: the leading edge.  When no timer runs, a setter call is published
    before it returns: the state it leaves has no wave pending, and, if the
    call changed an input, all seven timers run for [duration] from the time
    of the call. *)
Theorem call_when_idle t0 events e :
  Forall not_destroy events ->
  let st := run (new_store t0) events in
  no_timer st ->
  is_setter e ->
  settled (step st e)
  /\ (changes_input st e ->
      forall c, throttled (throttle_of c (pipe (step st e)))
                = Some (time e + duration)).
Proof.
  intros Hnd st Hidle He.
  destruct (reached_settled t0 events Hnd) as [[Hopen _] _]. fold st in Hopen.
  pose proof (reached_idle_is_empty t0 events Hnd) as Hempty. fold st in Hempty.
  assert (forall f, let st' := notify (time e) (with_store f st) in
            settled st'
            /\ forall c, throttled (throttle_of c (pipe st')) = Some (time e + duration))
    as Hnotify.
  { intros f st'. unfold st'. autounfold with events.
    pose proof (feed_all_idle (time e) (inputFlow (store (with_store f st))) chains
                  (with_store f st) Hopen chains_NoDup (fun c _ => Hidle c)) as Hall.
    split; intros c; [unfold settled_chain|]; by rewrite Hall by apply chains_complete. }
  unfold is_setter, changes_input in *. autounfold with steps.
  destruct (action e) as [mf|fs|fs| |c]; try done.
  - destruct (mainField (store st)) as [old|] eqn:Hold;
      [split; [apply Hnotify | intros _; apply Hnotify]|].
    destruct mf as [mf|]; [split; [apply Hnotify | intros _; apply Hnotify]|].
    split.
    + intros c. apply (Hempty c), Hidle.
    + intros [[? ?]|[? ?]]; done.
  - split; [apply Hnotify | intros _; apply Hnotify].
  - split; [apply Hnotify | intros _; apply Hnotify].
Qed.

Lemma feed_throttled t i st c d :
  throttled (throttle_of c (pipe st)) = Some d ->
  feed t i st c
  = if closed (owner c) (pipe st) then st
    else with_pipe (set_throttle c {| throttled := Some d; sendValue := Some i |}) st.
Proof.
  intros Hd. autounfold with feeds resumes. destruct (closed _ _); [done|].
  unfold throttle_next. by rewrite Hd.
Qed.

Lemma feed_all_throttled t i cs : forall st,
  all_timers st ->
  let st' := foldl (feed t i) st cs in
  store st' = store st
  /\ published st' = published st
  /\ (forall sub, closed sub (pipe st') = closed sub (pipe st))
  /\ (forall c, throttled (throttle_of c (pipe st'))
                = throttled (throttle_of c (pipe st)))
  /\ (forall c, c ∈ cs -> closed (owner c) (pipe st) = false ->
                sendValue (throttle_of c (pipe st')) = Some i).
Proof.
  induction cs as [|c0 cs IH]; intros st Hrun; cbn.
  - repeat split; try done. intros c Hc. by apply elem_of_nil in Hc.
  - destruct (Hrun c0) as [d Hd].
    assert (store (feed t i st c0) = store st
            /\ published (feed t i st c0) = published st
            /\ (forall sub, closed sub (pipe (feed t i st c0)) = closed sub (pipe st))
            /\ (forall c, throttled (throttle_of c (pipe (feed t i st c0)))
                          = throttled (throttle_of c (pipe st)))
            /\ (closed (owner c0) (pipe st) = false ->
                sendValue (throttle_of c0 (pipe (feed t i st c0))) = Some i))
      as (Hst & Hpub & Hcl & Hth & Hsv).
    { rewrite (feed_throttled t i st c0 d Hd).
      destruct (closed (owner c0) (pipe st)) eqn:Hc0; [done|].
      split; [done|]. split; [done|]. split; [|split].
      - intros sub. cbn. apply closed_set_throttle.
      - intros c. cbn. rewrite throttle_of_set. case_decide; [subst; by rewrite Hd | done].
      - intros _. cbn. by rewrite throttle_of_set, decide_True. }
    destruct (IH (feed t i st c0)) as (Hst' & Hpub' & Hcl' & Hth' & Hsv').
    { intros c. rewrite Hth. apply Hrun. }
    split; [|split; [|split; [|split]]].
    + by rewrite Hst'.
    + by rewrite Hpub'.
    + intros sub. by rewrite Hcl'.
    + intros c. by rewrite Hth'.
    + intros c Hc Hopen. destruct (decide (c ∈ cs)) as [Hin|Hout].
      * apply Hsv'; [done|]. by rewrite Hcl.
      * apply elem_of_cons in Hc as [->|?]; [|done].
        assert (forall cs' st', c0 ∉ cs' ->
                  throttle_of c0 (pipe (foldl (feed t i) st' cs'))
                  = throttle_of c0 (pipe st')) as Hkeep.
        { induction cs' as [|c1 cs' IH']; intros st' Hnotin; [done|]. cbn.
          rewrite IH' by (intros ?; apply Hnotin; by right).
          apply feed_throttle_other. intros ->. apply Hnotin. by left. }
        rewrite Hkeep by done. by apply Hsv.
Qed.

(** X8: the throttles hold calls back.  A setter call made while all seven
    timers run publishes nothing and runs no analyzer, in any state; the
    timers run on as they were, and if the call changed an input, every open
    chain keeps the new inputs for its trailing emission. *)
Theorem call_within_window st e :
  all_timers st ->
  is_setter e ->
  published (step st e) = published st
  /\ (forall c, throttled (throttle_of c (pipe (step st e)))
                = throttled (throttle_of c (pipe st)))
  /\ (changes_input st e ->
      forall c, closed (owner c) (pipe st) = false ->
                sendValue (throttle_of c (pipe (step st e)))
                = Some (inputFlow (store (step st e)))).
Proof.
  intros Hrun He.
  assert (forall f,
            (forall s, outputs (f s) = outputs s) ->
            let st' := notify (time e) (with_store f st) in
            published st' = published st
            /\ (forall c, throttled (throttle_of c (pipe st'))
                          = throttled (throttle_of c (pipe st)))
            /\ (forall c, closed (owner c) (pipe st) = false ->
                          sendValue (throttle_of c (pipe st'))
                          = Some (inputFlow (store st')))) as Hnotify.
  { intros f Hf st'. unfold st'. autounfold with events.
    destruct (feed_all_throttled (time e) (inputFlow (store (with_store f st)))
                chains (with_store f st) Hrun) as (Hst & Hpub & _ & Hth & Hsv).
    split; [|split].
    - rewrite Hpub. unfold published; cbn. specialize (Hf (store st)).
      unfold outputs in Hf. injection Hf as H1 H2 H3 H4 H5 H6 H7.
      by rewrite H1, H2, H3, H4, H5, H6, H7.
    - intros c. by rewrite Hth.
    - intros c Hopen. rewrite Hst. apply Hsv; [apply chains_complete | done]. }
  unfold is_setter, changes_input in *. autounfold with steps.
  destruct (action e) as [mf|fs|fs| |c]; try done.
  - destruct (Hnotify (setMainField mf)) as (H1 & H2 & H3); [done|].
    destruct (mainField (store st)) as [old|] eqn:Hold; [by eauto|].
    destruct mf as [mf|]; [by eauto|].
    repeat split; try done. intros [[? ?]|[? ?]]; done.
  - destruct (Hnotify (setMainFieldFilters fs)) as (H1 & H2 & H3); [done|]. by eauto.
  - destruct (Hnotify (setComparisonFilters fs)) as (H1 & H2 & H3); [done|]. by eauto.
Qed.

(** X9: the trailing edge.  Whatever calls were made and whenever the timers
    fired before, once all timers fire [duration] or more after the last
    event, no wave is pending, the inputs are those the calls left, and every
    chain has delivered them: the last call is never dropped. *)
Theorem last_call_published t0 events T :
  Forall not_destroy events ->
  Forall (fun e => time e + duration <= T) events ->
  t0 + duration <= T ->
  let st := run (new_store t0) events in
  let st' := run st (timers T) in
  settled st'
  /\ inputFlow (store st') = inputFlow (store st)
  /\ forall c, up_to_date c (inputFlow (store st)) st'.
Proof.
  intros Hnd Ht Ht0 st st'.
  assert (Forall is_timer (timers T)) as Htimers.
  { unfold timers. apply Forall_fmap, Forall_forall. by intros c _. }
  assert (settled st') as Hs.
  { replace st' with (run (new_store t0) (events ++ timers T))
      by apply foldl_app.
    by apply waves_complete. }
  assert (inputFlow (store st') = inputFlow (store st)) as Hin
    by (by apply timers_inputFlow).
  split; [done|]. split; [done|]. intros c. rewrite <- Hin.
  apply settled_up_to_date; [|apply Hs].
  apply run_invariant.
  - eapply Forall_impl; [exact Htimers | apply is_timer_not_destroy].
  - by apply run_invariant, new_store_invariant.
Qed.

(** *** Before a main field is set *)

Lemma comparisonBase_emit_main_unset st :
  main_unset st -> main_unset (comparisonBase_emit fields st).
Proof.
  intros Hst.
  pose proof Hst as (Hmf & Hsv & Hbg & Hc1 & Hc2 & Hgs & Hss & Hds & Hga & Hca & Hdg).
  autounfold with delivery.
  destruct (base_mainGroup (pipe st)) as [m|]; [|exact Hst].
  destruct (base_compareGroup (pipe st)) as [cg|]; [|exact Hst].
  destruct (base_global (pipe st)) as [g|] eqn:Hg; [|exact Hst].
  autounfold with stages. rewrite (Hbg g eq_refl). cbn.
  unfold main_unset; cbn.
  split; [done|]. split; [done|]. split; [by rewrite Hg|].
  split; [done|]. split; [lia|]. done.
Qed.

Lemma deliver_main_unset c v st :
  in_mainField v = None -> main_unset st -> main_unset (deliver c v st).
Proof.
  intros Hv Hst.
  pose proof Hst as (Hmf & Hsv & Hbg & Hc1 & Hc2 & Hgs & Hss & Hds & Hga & Hca & Hdg).
  assert (compareGroup_stage (global_stage v)
          = Some {| cg_data := []; cg_stats := None |}) as Hcg
    by (autounfold with stages; cbn; by rewrite Hv).
  autounfold with deliver_only. destruct c; rewrite ?Hcg.
  - autounfold with stages. cbn. rewrite Hv.
    unfold main_unset; cbn. by repeat (split; [done|]).
  - autounfold with stages. cbn. rewrite Hv.
    unfold main_unset; cbn. by repeat (split; [done|]).
  - autounfold with stages. cbn. rewrite Hv. cbn.
    unfold main_unset; cbn. repeat (split; [done || lia|]). done.
  - unfold main_unset; cbn. by repeat (split; [done|]).
  - apply comparisonBase_emit_main_unset.
    unfold main_unset; cbn. by repeat (split; [done|]).
  - apply comparisonBase_emit_main_unset.
    unfold main_unset; cbn. by repeat (split; [done|]).
  - apply comparisonBase_emit_main_unset.
    unfold main_unset; cbn. repeat (split; [done|]).
    split; [by intros g [= <-]|]. by repeat (split; [done|]).
Qed.

Lemma resume_main_unset c r st :
  (forall v, sendValue (fst r) = Some v -> in_mainField v = None) ->
  (forall v, snd r = Some v -> in_mainField v = None) ->
  main_unset st -> main_unset (resume c r st).
Proof.
  intros Hkept Hsent Hst.
  assert (main_unset (with_pipe (set_throttle c (fst r)) st)) as Hst'.
  { pose proof Hst as (Hmf & Hsv & Hrest).
    unfold main_unset; cbn. split; [done|]. split; [|exact Hrest].
    intros c' v. rewrite throttle_of_set. case_decide; [apply Hkept | apply Hsv]. }
  autounfold with resumes. destruct (snd r) as [v|]; [|done].
  apply deliver_main_unset; [by apply Hsent | done].
Qed.

Lemma feed_main_unset t i st c :
  in_mainField i = None -> main_unset st -> main_unset (feed t i st c).
Proof.
  intros Hi Hst. autounfold with feeds. destruct (closed _ _); [done|].
  pose proof Hst as (_ & Hsv & _).
  apply resume_main_unset; [| |done]; unfold throttle_next;
    destruct (throttled (throttle_of c (pipe st))); cbn; intros v Hv;
    simplify_eq/=; done.
Qed.

Lemma fire_main_unset t c st : main_unset st -> main_unset (fire t c st).
Proof.
  intros Hst. autounfold with feeds. destruct (closed _ _); [done|].
  pose proof Hst as (_ & Hsv & _). specialize (Hsv c).
  apply resume_main_unset; [| |done]; unfold throttle_timer;
    destruct (throttled (throttle_of c (pipe st))); cbn; try case_bool_decide;
    cbn; try destruct (sendValue (throttle_of c (pipe st))) eqn:Hv; cbn;
    intros v' Hv'; simplify_eq/=; eauto.
Qed.

Lemma notify_main_unset t st :
  main_unset st -> main_unset (notify t st).
Proof.
  intros Hst. autounfold with events.
  assert (in_mainField (inputFlow (store st)) = None) as Hi by apply Hst.
  revert Hi. generalize (inputFlow (store st)). intros i Hi.
  revert st Hst. induction chains as [|c cs IH]; intros st Hst; cbn; [done|].
  apply IH. by apply feed_main_unset.
Qed.

Lemma destroy_sendValue (st : State) c :
  sendValue (throttle_of c (pipe (destroy st)))
  = sendValue (throttle_of c (pipe st)).
Proof. by destruct c. Qed.

Lemma step_main_unset st e :
  leaves_main_null e -> main_unset st -> main_unset (step st e).
Proof.
  unfold leaves_main_null. intros He Hst. autounfold with steps.
  pose proof Hst as (Hmf & Hrest).
  destruct (action e) as [[mf|]|fs|fs| |c]; try done.
  - rewrite Hmf. unfold main_unset; cbn. split; [done | exact Hrest].
  - apply notify_main_unset. unfold main_unset; cbn. split; [done | exact Hrest].
  - apply notify_main_unset. unfold main_unset; cbn. split; [done | exact Hrest].
  - pose proof Hrest as (Hsv & Hrest').
    unfold main_unset. split; [exact Hmf|]. split; [|exact Hrest'].
    intros c v. rewrite (destroy_sendValue st c). apply Hsv.
  - by apply fire_main_unset.
Qed.

Lemma new_store_main_unset t0 : main_unset (new_store t0).
Proof.
  apply notify_main_unset. unfold main_unset; cbn.
  split; [done|]. split; [by intros []|]. by repeat (split; [done|]).
Qed.

(** X10: as long as [setMainField] has not been given a main field, whatever
    filters are set, whichever timers fire and even after [destroy()], neither
    analyzer is ever called and only the selection is published: the stats
    are [null], the analyses and the comparison group are empty. *)
Theorem nothing_without_main_field t0 events :
  Forall leaves_main_null events ->
  let st := run (new_store t0) events in
  calls_analyzeContributions st = 0
  /\ calls_analyzeComparisons st = 0
  /\ mainField (store st) = None
  /\ exists rows,
       outputs (store st) = (None, None, None, [], [], rows, []).
Proof.
  intros Hev st.
  assert (main_unset st) as Hst.
  { unfold st. generalize (new_store t0), (new_store_main_unset t0).
    induction events as [|e events IH]; intros st0 Hst0; [done|].
    apply Forall_cons in Hev as [He Hev]. cbn. apply IH; [done|].
    by apply step_main_unset. }
  destruct Hst as (Hmf & _ & _ & Hc1 & Hc2 & Hgs & Hss & Hds & Hga & Hca & Hdg).
  split; [done|]. split; [done|]. split; [done|].
  exists (selection (store st)). unfold outputs.
  by rewrite Hgs, Hss, Hds, Hga, Hca, Hdg.
Qed.

(** *** Bursts of any calls *)

Lemma step_potential_window st e last :
  window_event last e = true -> last < time e + duration ->
  contributions_potential last (time e) (step st e)
  <= contributions_potential last (time e) st
  /\ comparisons_potential last (time e) (step st e)
     <= comparisons_potential last (time e) st.
Proof.
  unfold window_event. intros He Hlt. autounfold with steps.
  destruct (action e) as [mf|fs|fs| |c]; try done.
  - apply bool_decide_eq_true in He.
    pose proof (notify_potential data fields (time e)
                  (with_store (setMainField mf) st) last He Hlt) as Hn.
    destruct (mainField (store st)); [done|]. by destruct mf.
  - apply bool_decide_eq_true in He.
    by apply (notify_potential data fields (time e)
                (with_store (setMainFieldFilters fs) st)).
  - apply bool_decide_eq_true in He.
    by apply (notify_potential data fields (time e)
                (with_store (setComparisonFilters fs) st)).
  - by apply fire_potential.
Qed.

(** X11: the throttles bound the analyzers for any burst.  From any state,
    over events in time order of which the setter calls, of any of the three
    setters, lie within a span shorter than [duration], whatever timers fire
    in between and after, [analyzeContributions] runs at most twice and
    [analyzeComparisons] at most six times. *)
Theorem window_analyzer_calls st now last events :
  last < now + duration ->
  in_order now events = true ->
  forallb (window_event last) events = true ->
  calls_analyzeContributions (run st events) <= calls_analyzeContributions st + 2
  /\ calls_analyzeComparisons (run st events) <= calls_analyzeComparisons st + 6.
Proof.
  intros Hlt Hord Hev.
  assert (calls_analyzeContributions (run st events)
          <= contributions_potential last now st
          /\ calls_analyzeComparisons (run st events)
             <= comparisons_potential last now st) as [H1 H2].
  { revert st now Hlt Hord Hev.
    induction events as [|e events IH]; intros st now Hlt Hord Hev.
    - unfold contributions_potential, comparisons_potential. cbn. lia.
    - cbn in Hord, Hev.
      apply andb_true_iff in Hord as [Hnow%bool_decide_eq_true Hord].
      apply andb_true_iff in Hev as [He Hev].
      assert (last < time e + duration) as Hlt' by lia.
      destruct (IH (step st e) (time e) Hlt' Hord Hev) as [H1 H2].
      destruct (step_potential_window st e last He Hlt') as [H3 H4].
      destruct (potential_mono last now (time e) st Hnow) as [H5 H6].
      change (run st (e :: events)) with (run (step st e) events). lia. }
  unfold contributions_potential, comparisons_potential in *.
  pose proof (fun c => budget_le_2 last now (throttle_of c (pipe st))) as Hb.
  pose proof (Hb ChGeneralAnalyses). pose proof (Hb ChBaseMainGroup).
  pose proof (Hb ChBaseCompareGroup). pose proof (Hb ChBaseGlobal). lia.
Qed.

(** *** [export] and the pipeline *)

Lemma export_inputFlow (s s' : BreakoutStore) :
  inputFlow s = inputFlow s' -> export s = export s'.
Proof.
  unfold inputFlow, export. intros [= Hmf Hfs Hcs]. by rewrite Hmf, Hfs, Hcs.
Qed.

(** X12: [export()] reads the three inputs only.  It shows a setter call as
    soon as the call returns, in any state of the pipeline, also while the
    throttles hold the call back and after [destroy()]; a timer that fires and
    [destroy()] leave it as it is. *)
Theorem export_follows_setters st e :
  match action e with
  | SetMainField mf =>
      export (store (step st e)) = export (setMainField mf (store st))
  | SetMainFieldFilters fs =>
      export (store (step st e)) = export (setMainFieldFilters fs (store st))
      /\ ex_mainFieldFilters (export (store (step st e))) = exportFilters fs fields
  | SetComparisonFilters fs =>
      export (store (step st e)) = export (setComparisonFilters fs (store st))
      /\ ex_comparisonFilters (export (store (step st e))) = exportFilters fs fields
  | Destroy | TimerFires _ =>
      export (store (step st e)) = export (store st)
  end.
Proof.
  autounfold with steps. destruct (action e) as [mf|fs|fs| |c].
  - apply export_inputFlow. repeat case_match; try done; by rewrite notify_inputFlow.
  - assert (export (store (notify (time e) (with_store (setMainFieldFilters fs) st)))
            = export (setMainFieldFilters fs (store st))) as Hex
      by (apply export_inputFlow; by rewrite notify_inputFlow).
    split; [done|]. by rewrite Hex.
  - assert (export (store (notify (time e) (with_store (setComparisonFilters fs) st)))
            = export (setComparisonFilters fs (store st))) as Hex
      by (apply export_inputFlow; by rewrite notify_inputFlow).
    split; [done|]. by rewrite Hex.
  - done.
  - apply export_inputFlow. apply fire_inputFlow.
Qed.

End MorePipelineProperties.

(** ** More on [exportFilters] *)

Lemma exportFilters_app filters more fieldMetas :
  exportFilters (filters ++ more) fieldMetas
  = exportFilters filters fieldMetas ++ exportFilters more fieldMetas.
Proof.
  induction filters as [|f fs IH]; [done|]. cbn.
  destruct (find_field fieldMetas (filter_fid f)); [|done]. cbn. by rewrite IH.
Qed.

(** X13: exporting goes filter by filter, so the export of a concatenation is
    the concatenation of the exports; it never yields more entries than
    filters; exporting the filters of an export again gives the same export;
    and when every filter names a field of [fieldMetas], no filter is lost. *)
Theorem exportFilters_stable filters more fieldMetas :
  exportFilters (filters ++ more) fieldMetas
  = exportFilters filters fieldMetas ++ exportFilters more fieldMetas
  /\ length (exportFilters filters fieldMetas) <= length filters
  /\ exportFilters (ef_filter <$> exportFilters filters fieldMetas) fieldMetas
     = exportFilters filters fieldMetas
  /\ (Forall (fun f => filter_fid f ∈ fid <$> fieldMetas) filters ->
      ef_filter <$> exportFilters filters fieldMetas = filters).
Proof.
  split; [apply exportFilters_app|]. split; [|split].
  - induction filters as [|f fs IH]; [done|]. cbn.
    destruct (find_field fieldMetas (filter_fid f)); cbn; lia.
  - induction filters as [|f fs IH]; [done|]. cbn.
    destruct (find_field fieldMetas (filter_fid f)) as [m|] eqn:Hm; [|done].
    cbn. rewrite Hm. by rewrite IH.
  - intros Hall. rewrite exportFilters_filters.
    induction Hall as [|f fs Hf Hall IH]; [done|].
    by rewrite filter_cons_True, IH.
Qed.

(** ** The analyzer calls of one wave *)

Section WaveCounts.
Context `{Imports}.
Variable data : list IRow.
Variable fields : list IFieldMeta.

Local Abbreviation global_stage := (global_stage data fields).
Local Abbreviation mainGroup_stage := (mainGroup_stage data fields).
Local Abbreviation compareGroup_stage := (compareGroup_stage data fields).
Local Abbreviation deliver := (deliver data fields).
Local Abbreviation feed := (feed data fields).
Local Abbreviation notify := (notify data fields).
Local Abbreviation step := (step data fields).
Local Abbreviation run := (run data fields).
Local Abbreviation new_store := (new_store data fields).
Local Abbreviation invariant := (invariant data fields).

Lemma feed_idle_deliver t i st c :
  closed (owner c) (pipe st) = false ->
  throttled (throttle_of c (pipe st)) = None ->
  feed t i st c
  = deliver c i
      (with_pipe (set_throttle c {| throttled := Some (t + duration);
                                    sendValue := None |}) st).
Proof.
  intros Hopen Hidle. autounfold with feeds resumes. rewrite Hopen.
  unfold throttle_next. by rewrite Hidle.
Qed.

(** With its three slots filled, [comparisonBase$] runs the callback of
    [comparisonAnalyses$] at each emission, on the [global] value it holds. *)
Lemma comparisonBase_emit_comparing st g :
  comparing st g ->
  comparing (comparisonBase_emit fields st) g
  /\ calls_analyzeComparisons (comparisonBase_emit fields st)
     = calls_analyzeComparisons st + comparison_runs (g_input g)
  /\ calls_analyzeContributions (comparisonBase_emit fields st)
     = calls_analyzeContributions st.
Proof.
  intros (Hopen & [m Hm] & [cg Hcg] & Hg).
  unfold comparisonBase_emit, comparisonAnalyses_stage, comparison_runs.
  rewrite Hm, Hcg, Hg.
  destruct (in_mainField (g_input g)) as [mf|];
    [destruct (in_comparisonFilters (g_input g)) as [|f fs]|]; cbn;
    (split; [|by split]);
    autounfold with comparing; cbn; by eauto.
Qed.

(** One chain of an idle throttle delivers the inputs at once: what it adds
    to the two counters, and the [global] value [comparisonBase$] holds
    afterwards. *)
Lemma feed_idle_counts t i st c g :
  closed (owner c) (pipe st) = false ->
  throttled (throttle_of c (pipe st)) = None ->
  comparing st g ->
  let g' := match c with ChBaseGlobal => global_stage i | _ => g end in
  comparing (feed t i st c) g'
  /\ calls_analyzeComparisons (feed t i st c)
     = calls_analyzeComparisons st
       + match owner c with
         | SubComparisonAnalyses => comparison_runs (g_input g')
         | _ => 0
         end
  /\ calls_analyzeContributions (feed t i st c)
     = calls_analyzeContributions st
       + match c with
         | ChGeneralAnalyses =>
             snd (generalAnalyses_stage fields (mainGroup_stage (global_stage i)))
         | _ => 0
         end.
Proof.
  intros Hopen Hidle Hst g'. unfold g'. clear g'.
  rewrite feed_idle_deliver by done.
  destruct (compareGroup_stage_total data fields i) as [cgi Hcgi].
  autounfold with deliver_only.
  destruct c; rewrite ?Hcgi; cbn [owner].
  all: try match goal with
       | |- context [comparisonBase_emit _ ?s] =>
           rewrite Nat.add_0_r;
           apply (comparisonBase_emit_comparing s);
           destruct Hst as (Hc & Hm & Hcg & Hg);
           autounfold with comparing; cbn; by eauto
       end.
  all: cbn;
    try destruct (generalAnalyses_stage fields (mainGroup_stage (global_stage i)));
    cbn; (split; [exact Hst|]; split; lia).
Qed.

(** A whole leading wave: the seven chains deliver in the order of their
    subscriptions.  The chains of [mainGroup$] and [compareGroup$] reach
    [comparisonBase$] before the chain of [global$] does, so its callback
    runs twice on the [global] value of the wave before. *)
Lemma notify_idle_counts t st g :
  all_open st ->
  no_timer st ->
  comparing st g ->
  let i := inputFlow (store st) in
  calls_analyzeComparisons (notify t st)
  = calls_analyzeComparisons st + 2 * comparison_runs (g_input g) + comparison_runs i
  /\ calls_analyzeContributions (notify t st)
     = calls_analyzeContributions st
       + snd (generalAnalyses_stage fields (mainGroup_stage (global_stage i))).
Proof.
  intros Hopen Hidle Hst i. autounfold with events. fold i.
  unfold chains. cbn [foldl].
  assert (forall s c g0,
            all_open s -> throttled (throttle_of c (pipe s)) = None ->
            comparing s g0 ->
            all_open (feed t i s c)
            /\ (forall c', c <> c' ->
                 throttled (throttle_of c' (pipe (feed t i s c)))
                 = throttled (throttle_of c' (pipe s)))) as Hkeep.
  { intros s c g0 Ho _ _. split.
    - intros sub. by rewrite feed_closed.
    - intros c' Hne. by rewrite feed_throttle_other. }
  pose proof (feed_idle_counts t i st ChGlobal g (Hopen _) (Hidle _) Hst)
    as (H1 & Hn1 & Hm1).
  destruct (Hkeep st ChGlobal g Hopen (Hidle _) Hst) as [Ho1 Hi1].
  set (s1 := feed t i st ChGlobal) in *.
  assert (forall c, ChGlobal <> c -> throttled (throttle_of c (pipe s1)) = None)
    as Hidle1 by (intros c Hc; rewrite Hi1 by done; apply Hidle).
  pose proof (feed_idle_counts t i s1 ChMainGroup _ (Ho1 _) (Hidle1 ChMainGroup ltac:(done)) H1)
    as (H2 & Hn2 & Hm2).
  destruct (Hkeep s1 ChMainGroup _ Ho1 (Hidle1 ChMainGroup ltac:(done)) H1) as [Ho2 Hi2].
  set (s2 := feed t i s1 ChMainGroup) in *.
  assert (forall c, ChGlobal <> c -> ChMainGroup <> c ->
            throttled (throttle_of c (pipe s2)) = None)
    as Hidle2 by (intros c ? ?; rewrite Hi2 by done; by apply Hidle1).
  pose proof (feed_idle_counts t i s2 ChGeneralAnalyses _ (Ho2 _)
                (Hidle2 ChGeneralAnalyses ltac:(done) ltac:(done)) H2) as (H3 & Hn3 & Hm3).
  destruct (Hkeep s2 ChGeneralAnalyses _ Ho2 (Hidle2 ChGeneralAnalyses ltac:(done) ltac:(done)) H2)
    as [Ho3 Hi3].
  set (s3 := feed t i s2 ChGeneralAnalyses) in *.
  assert (forall c, ChGlobal <> c -> ChMainGroup <> c -> ChGeneralAnalyses <> c ->
            throttled (throttle_of c (pipe s3)) = None)
    as Hidle3 by (intros c ? ? ?; rewrite Hi3 by done; by apply Hidle2).
  pose proof (feed_idle_counts t i s3 ChCompareGroup _ (Ho3 _)
                (Hidle3 ChCompareGroup ltac:(done) ltac:(done) ltac:(done)) H3) as (H4 & Hn4 & Hm4).
  destruct (Hkeep s3 ChCompareGroup _ Ho3
              (Hidle3 ChCompareGroup ltac:(done) ltac:(done) ltac:(done)) H3) as [Ho4 Hi4].
  set (s4 := feed t i s3 ChCompareGroup) in *.
  assert (forall c, ChGlobal <> c -> ChMainGroup <> c -> ChGeneralAnalyses <> c ->
            ChCompareGroup <> c ->
            throttled (throttle_of c (pipe s4)) = None)
    as Hidle4 by (intros c ? ? ? ?; rewrite Hi4 by done; by apply Hidle3).
  pose proof (feed_idle_counts t i s4 ChBaseMainGroup _ (Ho4 _)
                (Hidle4 ChBaseMainGroup ltac:(done) ltac:(done) ltac:(done) ltac:(done)) H4)
    as (H5 & Hn5 & Hm5).
  destruct (Hkeep s4 ChBaseMainGroup _ Ho4
              (Hidle4 ChBaseMainGroup ltac:(done) ltac:(done) ltac:(done) ltac:(done)) H4)
    as [Ho5 Hi5].
  set (s5 := feed t i s4 ChBaseMainGroup) in *.
  assert (forall c, ChGlobal <> c -> ChMainGroup <> c -> ChGeneralAnalyses <> c ->
            ChCompareGroup <> c -> ChBaseMainGroup <> c ->
            throttled (throttle_of c (pipe s5)) = None)
    as Hidle5 by (intros c ? ? ? ? ?; rewrite Hi5 by done; by apply Hidle4).
  pose proof (feed_idle_counts t i s5 ChBaseCompareGroup _ (Ho5 _)
                (Hidle5 ChBaseCompareGroup ltac:(done) ltac:(done) ltac:(done) ltac:(done)
                   ltac:(done)) H5)
    as (H6 & Hn6 & Hm6).
  destruct (Hkeep s5 ChBaseCompareGroup _ Ho5
              (Hidle5 ChBaseCompareGroup ltac:(done) ltac:(done) ltac:(done) ltac:(done)
                 ltac:(done)) H5)
    as [Ho6 Hi6].
  set (s6 := feed t i s5 ChBaseCompareGroup) in *.
  assert (throttled (throttle_of ChBaseGlobal (pipe s6)) = None) as Hidle6
    by (rewrite Hi6 by done; by apply Hidle5).
  pose proof (feed_idle_counts t i s6 ChBaseGlobal _ (Ho6 _) Hidle6 H6)
    as (_ & Hn7 & Hm7).
  rewrite Hn7, Hm7, Hn6, Hm6, Hn5, Hm5, Hn4, Hm4, Hn3, Hm3, Hn2, Hm2, Hn1, Hm1.
  cbn [owner g_input global_stage]. split; lia.
Qed.

Lemma notify_idle_settled t st :
  all_open st -> no_timer st -> settled (notify t st).
Proof.
  intros Hopen Hidle c. unfold settled_chain. autounfold with events.
  by rewrite (feed_all_idle data fields t (inputFlow (store st)) chains st Hopen
                chains_NoDup (fun c _ => Hidle c)) by apply chains_complete.
Qed.

Lemma contribution_runs i :
  snd (generalAnalyses_stage fields (mainGroup_stage (global_stage i)))
  = match g_globalStats (global_stage i) with Some _ => 1 | None => 0 end.
Proof.
  autounfold with stages. cbn.
  destruct (in_mainField i) as [mf|]; [|done].
  by destruct (resolveCompareTarget mf fields).
Qed.

(** X14: the calls of the two analyzers in a leading wave.  A setter call
    that changes an input while no timer runs makes [analyzeContributions]
    run once when it leaves [globalStats] set, and not otherwise; the
    callback of [comparisonAnalyses$] runs three times, twice on the inputs
    of before the call and once on the new ones, and each run calls
    [analyzeComparisons] when its inputs hold a main field and comparison
    filters. *)
Theorem leading_wave_analyzer_calls t0 events e :
  Forall not_destroy events ->
  let st := run (new_store t0) events in
  no_timer st ->
  is_setter e ->
  changes_input st e ->
  let st' := step st e in
  calls_analyzeComparisons st'
  = calls_analyzeComparisons st
    + 2 * comparison_runs (inputFlow (store st))
    + comparison_runs (inputFlow (store st'))
  /\ calls_analyzeContributions st'
     = calls_analyzeContributions st + match globalStats (store st') with Some _ => 1 | None => 0 end.
Proof.
  intros Hnd st Hidle He Hch st'.
  assert (invariant st) as Hinv by (by apply run_invariant, new_store_invariant).
  pose proof (reached_idle_is_empty data fields t0 events Hnd) as Hempty.
  fold st in Hempty.
  assert (settled st) as Hs by (intros c; apply (Hempty c), Hidle).
  set (g := global_stage (inputFlow (store st))).
  assert (comparing st g) as Hcmp.
  { pose proof (settled_up_to_date data fields ChBaseMainGroup st Hinv (Hs _)) as Hm.
    pose proof (settled_up_to_date data fields ChBaseCompareGroup st Hinv (Hs _)) as Hc.
    pose proof (settled_up_to_date data fields ChBaseGlobal st Hinv (Hs _)) as Hg.
    autounfold with inv in Hm, Hc, Hg. cbn in Hm, Hc, Hg.
    autounfold with comparing. rewrite Hm, Hc.
    split; [apply Hinv|]. split; [by eauto|].
    split; [apply compareGroup_stage_total|]. exact Hg. }
  assert (forall f, step st e = notify (time e) (with_store f st) ->
            calls_analyzeComparisons (step st e)
            = calls_analyzeComparisons st
              + 2 * comparison_runs (inputFlow (store st))
              + comparison_runs (inputFlow (store (step st e)))
            /\ calls_analyzeContributions (step st e)
               = calls_analyzeContributions st
                 + match globalStats (store (step st e)) with Some _ => 1 | None => 0 end) as Hwave.
  { intros f Hstep.
    assert (invariant (step st e)) as Hinv'.
    { apply step_invariant; [|done]. unfold is_setter in He. unfold not_destroy.
      by destruct (action e). }
    assert (settled (step st e)) as Hs'.
    { rewrite Hstep. apply notify_idle_settled; [apply Hinv|apply Hidle]. }
    pose proof (settled_up_to_date data fields ChGlobal _ Hinv' (Hs' _)) as Hgs.
    unfold up_to_date in Hgs. cbv zeta in Hgs.
    rewrite Hgs. rewrite <- contribution_runs.
    rewrite Hstep at 1 2 3 4. rewrite notify_inputFlow.
    apply (notify_idle_counts (time e) (with_store f st) g);
      [apply Hinv|apply Hidle|exact Hcmp]. }
  unfold st'. unfold is_setter, changes_input in *.
  destruct (action e) as [mf|fs|fs| |c] eqn:Ha; try done.
  - apply (Hwave (setMainField mf)). autounfold with steps. rewrite Ha.
    destruct (mainField (store st)) as [old|] eqn:Hold; [done|].
    destruct mf as [mf|]; [done|]. by destruct Hch as [[? ?]|[? ?]].
  - apply (Hwave (setMainFieldFilters fs)). autounfold with steps. by rewrite Ha.
  - apply (Hwave (setComparisonFilters fs)). autounfold with steps. by rewrite Ha.
Qed.

End WaveCounts.

(** ** The further properties on the example dataset *)

Module MoreExamples.
Import Demo.

Ltac settle := intros []; vm_compute; reflexivity.
Ltac no_destroy := vm_compute; repeat constructor.
Ltac run_it := vm_compute; reflexivity.

Lemma comparisonAnalyses_published_witness :
  let st := play plain compare_high in
  Forall not_destroy compare_high
  /\ settled st
  /\ comparisonAnalyses (store st)
     = match mainField (store st), comparisonFilters (store st) with
       | Some mf, _ :: _ =>
           analyzeComparisons (selection (store st)) (diffGroup (store st)) fields mf
       | _, _ => []
       end
  /\ comparisonAnalyses (store st)
     = analyzeComparisons [row 10 1; row 20 2] [row 30 3; row 40 4] fields mean_of_f.
Proof.
  assert (Forall not_destroy compare_high) as Hnd by no_destroy.
  assert (settled (play plain compare_high)) as Hs by settle.
  assert (comparisonAnalyses (store (play plain compare_high))
          = analyzeComparisons [row 10 1; row 20 2] [row 30 3; row 40 4] fields
              mean_of_f) as Hca by run_it.
  exact (conj Hnd (conj Hs (conj
           (@comparisonAnalyses_published plain data fields 0 compare_high Hnd Hs)
           Hca))).
Defined.

Lemma same_inputs_same_outputs_witness :
  let st := play plain compare_high in
  let st' := play plain compare_first in
  Forall not_destroy compare_high
  /\ Forall not_destroy compare_first
  /\ settled st /\ settled st'
  /\ inputFlow (store st) = inputFlow (store st')
  /\ outputs (store st) = outputs (store st').
Proof.
  assert (Forall not_destroy compare_high) as Hnd by no_destroy.
  assert (Forall not_destroy compare_first) as Hnd' by no_destroy.
  assert (settled (play plain compare_high)) as Hs by settle.
  assert (settled (play plain compare_first)) as Hs' by settle.
  assert (inputFlow (store (play plain compare_high))
          = inputFlow (store (play plain compare_first))) as Hin by run_it.
  exact (conj Hnd (conj Hnd' (conj Hs (conj Hs' (conj Hin
           (@same_inputs_same_outputs plain data fields 0 compare_high 0
              compare_first Hnd Hnd' Hs Hs' Hin)))))).
Defined.


Lemma stats_published_when_witness :
  let st := play plain select_low in
  Forall not_destroy select_low
  /\ settled st
  /\ (is_Some (selectionStats (store st))
      <-> is_Some (globalStats (store st)) /\ mainFieldFilters (store st) <> [])
  /\ (is_Some (diffStats (store st))
      <-> is_Some (globalStats (store st)) /\ comparisonFilters (store st) <> [])
  /\ is_Some (selectionStats (store st))
  /\ diffStats (store st) = None.
Proof.
  assert (Forall not_destroy select_low) as Hnd by no_destroy.
  assert (settled (play plain select_low)) as Hs by settle.
  assert (is_Some (selectionStats (store (play plain select_low)))) as Hsel
    by (vm_compute; eexists; reflexivity).
  assert (diffStats (store (play plain select_low)) = None) as Hdiff by run_it.
  pose proof (@stats_published_when plain data fields 0 select_low Hnd Hs) as Hall.
  exact (conj Hnd (conj Hs (conj (proj1 (proj2 Hall))
           (conj (proj1 (proj2 (proj2 Hall))) (conj Hsel Hdiff))))).
Defined.

Lemma unresolved_main_field_witness :
  let st := play plain select_unknown in
  Forall not_destroy select_unknown
  /\ settled st
  /\ mainField (store st) = Some mean_of_z
  /\ resolveCompareTarget id mean_of_z fields = None
  /\ globalStats (store st) = None
  /\ selectionStats (store st) = None
  /\ diffStats (store st) = None
  /\ generalAnalyses (store st) = []
  /\ diffGroup (store st) = []
  /\ comparisonAnalyses (store st)
     = match comparisonFilters (store st) with
       | [] => []
       | _ :: _ => analyzeComparisons (selection (store st)) [] fields mean_of_z
       end.
Proof.
  assert (Forall not_destroy select_unknown) as Hnd by no_destroy.
  assert (settled (play plain select_unknown)) as Hs by settle.
  assert (mainField (store (play plain select_unknown)) = Some mean_of_z) as Hmf
    by run_it.
  assert (resolveCompareTarget id mean_of_z fields = None) as Hno by run_it.
  exact (conj Hnd (conj Hs (conj Hmf (conj Hno
           (@unresolved_main_field plain data fields 0 select_unknown mean_of_z
              Hnd Hs Hmf Hno))))).
Defined.

Lemma call_when_idle_witness :
  let st := play plain select_low in
  let e := at_ 3000 (SetComparisonFilters [range "f" 25 40]) in
  Forall not_destroy select_low
  /\ no_timer st
  /\ is_setter e
  /\ changes_input st e
  /\ settled (@step plain data fields st e)
  /\ forall c, throttled (throttle_of c (pipe (@step plain data fields st e)))
               = Some (time e + duration).
Proof.
  assert (Forall not_destroy select_low) as Hnd by no_destroy.
  assert (no_timer (play plain select_low)) as Hidle by settle.
  pose proof (@call_when_idle plain data fields 0 select_low
                (at_ 3000 (SetComparisonFilters [range "f" 25 40])) Hnd Hidle I)
    as Hall.
  exact (conj Hnd (conj Hidle (conj I (conj I (conj (proj1 Hall) (proj2 Hall I)))))).
Defined.

Lemma call_within_window_witness :
  let st := @new_store plain data fields 0 in
  let e := at_ 50 (SetMainField (Some mean_of_f)) in
  all_timers st
  /\ is_setter e
  /\ published (@step plain data fields st e) = published st
  /\ forall c, throttled (throttle_of c (pipe (@step plain data fields st e)))
               = throttled (throttle_of c (pipe st)).
Proof.
  assert (all_timers (@new_store plain data fields 0)) as Hall
    by (intros []; vm_compute; eexists; reflexivity).
  pose proof (@call_within_window plain data fields (@new_store plain data fields 0)
                (at_ 50 (SetMainField (Some mean_of_f))) Hall I) as Hw.
  exact (conj Hall (conj I (conj (proj1 Hw) (proj1 (proj2 Hw))))).
Defined.

Lemma last_call_published_witness :
  let st := play plain clearing in
  let st' := @run plain data fields st (timers 3600) in
  Forall not_destroy clearing
  /\ Forall (fun e => time e + duration <= 3600) clearing
  /\ 0 + duration <= 3600
  /\ settled st'
  /\ inputFlow (store st') = inputFlow (store st)
  /\ forall c, @up_to_date plain data fields c (inputFlow (store st)) st'.
Proof.
  assert (Forall not_destroy clearing) as Hnd by no_destroy.
  assert (Forall (fun e => time e + duration <= 3600) clearing) as Hby
    by (apply (bool_decide_unpack _); vm_compute; exact I).
  assert (0 + duration <= 3600) as H0
    by (apply (bool_decide_unpack _); vm_compute; exact I).
  exact (conj Hnd (conj Hby (conj H0
           (@last_call_published plain data fields 0 clearing 3600 Hnd Hby H0)))).
Defined.

Lemma nothing_without_main_field_witness :
  let st := play plain filters_only in
  Forall leaves_main_null filters_only
  /\ calls_analyzeContributions st = 0
  /\ calls_analyzeComparisons st = 0
  /\ mainField (store st) = None
  /\ mainFieldFilters (store st) = [range "f" 0 25]
  /\ comparisonFilters (store st) = [range "f" 25 40].
Proof.
  assert (Forall leaves_main_null filters_only) as Hnull by no_destroy.
  assert (mainFieldFilters (store (play plain filters_only)) = [range "f" 0 25])
    as Hf by run_it.
  assert (comparisonFilters (store (play plain filters_only)) = [range "f" 25 40])
    as Hc by run_it.
  pose proof (@nothing_without_main_field plain data fields 0 filters_only Hnull)
    as Hall.
  exact (conj Hnull (conj (proj1 Hall) (conj (proj1 (proj2 Hall))
           (conj (proj1 (proj2 (proj2 Hall))) (conj Hf Hc))))).
Defined.

Lemma window_analyzer_calls_witness :
  let st := play plain compare_high in
  4020 < 4000 + duration
  /\ in_order 4000 mixed_burst = true
  /\ forallb (window_event 4020) mixed_burst = true
  /\ calls_analyzeContributions (@run plain data fields st mixed_burst)
     <= calls_analyzeContributions st + 2
  /\ calls_analyzeComparisons (@run plain data fields st mixed_burst)
     <= calls_analyzeComparisons st + 6.
Proof.
  assert (4020 < 4000 + duration) as Hlast
    by (apply (bool_decide_unpack _); vm_compute; exact I).
  assert (in_order 4000 mixed_burst = true) as Hord by run_it.
  assert (forallb (window_event 4020) mixed_burst = true) as Hev by run_it.
  exact (conj Hlast (conj Hord (conj Hev
           (@window_analyzer_calls plain data fields (play plain compare_high)
              4000 4020 mixed_burst Hlast Hord Hev)))).
Defined.

Lemma leading_wave_analyzer_calls_witness :
  let st := play plain compare_high in
  let e := at_ 4000 (SetMainFieldFilters [range "f" 0 30]) in
  let st' := @step plain data fields st e in
  Forall not_destroy compare_high
  /\ no_timer st
  /\ is_setter e
  /\ changes_input st e
  /\ calls_analyzeComparisons st'
     = calls_analyzeComparisons st
       + 2 * comparison_runs (inputFlow (store st))
       + comparison_runs (inputFlow (store st'))
  /\ calls_analyzeContributions st'
     = calls_analyzeContributions st
       + match globalStats (store st') with Some _ => 1 | None => 0 end.
Proof.
  assert (Forall not_destroy compare_high) as Hnd by no_destroy.
  assert (no_timer (play plain compare_high)) as Hidle by settle.
  exact (conj Hnd (conj Hidle (conj I (conj I
           (@leading_wave_analyzer_calls plain data fields 0 compare_high
              (at_ 4000 (SetMainFieldFilters [range "f" 0 30])) Hnd Hidle I I))))).
Defined.

(** One call on an idle store with a main field and a comparison group
    runs [analyzeComparisons] three times and [analyzeContributions] once. *)
Lemma one_call_runs_analyzeComparisons_three_times :
  let st := play plain compare_high in
  let st' := @step plain data fields st
               (at_ 4000 (SetMainFieldFilters [range "f" 0 30])) in
  calls_analyzeComparisons st' = calls_analyzeComparisons st + 3
  /\ calls_analyzeContributions st' = calls_analyzeContributions st + 1.
Proof. split; run_it. Qed.

End MoreExamples.
